(** * The scenario Runner of comet ([src/plugins/scenario/Runner.ts])

    A shallow embedding of [combos], [identity], [asList], [mapSolution],
    the constructor of [Runner], [Runner.run] and [Runner.generateResult],
    and the properties of the runner that follow from the code.

    Conventions of the embedding.
    - A JavaScript number is an IEEE 754 binary64: the kernel's [float].
    - Everything a scenario author supplies ([initializer], [forker],
      [transformer], [property], a constraint's [solve] and [check], a
      solution) and the world's [_snapshot] and [_revertAndSnapshot] are
      asynchronous functions with arbitrary effects: a function on the state
      of the environment that settles, either fulfilled with a value or
      rejected with a thrown value.  [await] turns a rejection into a throw.
    - Every call settles: a call that hangs forever, for which the runner
      has no timeout, has no counterpart here.
    - Every call the runner makes to such a function is recorded, in order,
      with the constraint or the solution called, its arguments and how it
      settled: the list of calls is what a test with stubs would observe.
    - A conversion the language makes on its own (of the right operand of
      [/]) is not a call of the runner and is not recorded; it acts on the
      environment and may throw all the same.
    - The solves that [Promise.all] joins are all started, in the order of
      the constraints; each is taken to settle before the next one starts.
      Which of several rejections comes first in time is left to the
      environment.
    - The generator [combos] is pure; the sequence of its yields is a list. *)

From Stdlib Require Import List String Ascii Bool Arith ZArith Lia PrimFloat Sorted.
Import ListNotations.

Set Implicit Arguments.

(** ** JavaScript values *)

(** The values that flow through the runner without a static type that the
    code relies on: contexts, what a solution resolves to, what is thrown.
    An [Error] instance carries what [generateResult] reads from it. *)
Inductive value : Type :=
| VUndefined
| VNull
| VBool (b : bool)
| VNumber (n : float)
| VBigInt (n : Z)
| VString (s : string)
| VSymbol (ref : nat)
| VObject (ref : nat)
| VError (ref : nat) (assertion : bool) (stack : string)
         (actual expected : value).

(** ToBoolean: the falsy values are undefined, null, false, +0, -0, NaN, 0n
    and the empty string. *)
Definition truthy (v : value) : bool :=
  match v with
  | VUndefined | VNull => false
  | VBool b => b
  | VNumber n => negb (PrimFloat.eqb n 0 || PrimFloat.is_nan n)
  | VBigInt n => negb (Z.eqb n 0)
  | VString s => match s with EmptyString => false | String _ _ => true end
  | VSymbol _ | VObject _ | VError _ _ _ _ _ => true
  end.

(** [a || b] *)
Definition or_else (a b : value) : value := if truthy a then a else b.

(** [a === b]: numbers by IEEE equality, symbols and objects by reference. *)
Definition strict_equal (a b : value) : bool :=
  match a, b with
  | VUndefined, VUndefined => true
  | VNull, VNull => true
  | VBool x, VBool y => Bool.eqb x y
  | VNumber x, VNumber y => PrimFloat.eqb x y
  | VBigInt x, VBigInt y => Z.eqb x y
  | VString x, VString y => String.eqb x y
  | VSymbol x, VSymbol y => Nat.eqb x y
  | VObject x, VObject y => Nat.eqb x y
  | VError x _ _ _ _, VError y _ _ _ _ => Nat.eqb x y
  | _, _ => false
  end.

(** [err instanceof AssertionError] *)
Definition instanceof_AssertionError (err : value) : bool :=
  match err with
  | VError _ assertion _ _ _ => assertion
  | _ => false
  end.

(** [err.stack], [err.actual], [err.expected]: a value that is not an
    [Error] has none of them. *)
Definition get_stack (err : value) : value :=
  match err with
  | VError _ _ stack _ _ => VString stack
  | _ => VUndefined
  end.

Definition get_actual (err : value) : value :=
  match err with
  | VError _ _ _ actual _ => actual
  | _ => VUndefined
  end.

Definition get_expected (err : value) : value :=
  match err with
  | VError _ _ _ _ expected => expected
  | _ => VUndefined
  end.

(** How a call ends: it returns (an awaited promise is fulfilled) or it
    throws (the promise is rejected). *)
Inductive outcome (A : Type) : Type :=
| Returned (a : A)
| Thrown (e : value).
Arguments Thrown {A} e.

(** ** The records the runner exchanges with its callers *)

Module ForkSpec.
Record t : Type := { name : string }.
End ForkSpec.

(** [Result] of worker/Parent: the field [numSolutionSets] is declared a
    number, and holds whatever [generateResult] receives in that position. *)
Module Result.
Record t : Type := {
  base : string;
  file : string;
  scenario : string;
  gasUsed : float;
  numSolutionSets : value;
  elapsed : float;
  error : value;
  trace : value;
  diff : option (value * value)
}.
End Result.

(** How a statement of [run] completes. *)
Inductive completion (A : Type) : Type :=
| Normal (a : A)
| Return (r : Result.t)
| Throw (e : value).
Arguments Return {A} r.
Arguments Throw {A} e.

(** ** What the runner takes from its environment

    [St] is the state everything outside the runner lives in: the world, the
    objects contexts refer to, the clock.  [BigNumber] with [toNumber] is
    ethers' (it throws on a number that does not fit); [Date_now] reads the
    clock.  [string_to_number] is the number a string parses to;
    [object_to_number] is the conversion of an object to a number, which
    runs the object's own [valueOf] and [toString], with whatever they do,
    and throws when they throw or give no primitive; [TypeError] is the
    error the language throws for an operand it cannot convert.
    [first_rejection] says which of the rejections that [Promise.all] is
    given came first in time: its position among them. *)
Class Runtime : Type := {
  St : Type;
  BigNumber : Type;
  toNumber : BigNumber -> outcome float;
  Date_now : St -> float;
  string_to_number : string -> float;
  object_to_number : value -> St -> outcome float * St;
  TypeError : St -> value;
  first_rejection : St -> nat
}.

Section Model.
Context `{Runtime}.

(** The type of a scenario's requirements (the parameter [U]). *)
Variable U : Type.

(** An asynchronous function call: it changes the environment and settles. *)
Definition Async (A : Type) : Type := St -> outcome A * St.

Record World : Type := {
  _snapshot : Async string;
  _revertAndSnapshot : string -> Async string
}.

Definition Solution : Type := value -> World -> Async value.

(** [T | T[]] *)
Inductive OneOrMany (T : Type) : Type :=
| One (v : T)
| Many (l : list T).

Record Constraint : Type := {
  solve : U -> value -> World -> Async (option (OneOrMany Solution));
  check : U -> value -> World -> Async unit
}.

Record ContractReceipt : Type := { cumulativeGasUsed : BigNumber }.

Record Scenario : Type := {
  name : string;
  file : option string;
  requirements : U;
  initializer : World -> Async value;
  forker : value -> Async value;
  transformer : value -> Async value;
  property : value -> World -> value -> Async (option ContractReceipt);
  constraints : option (list Constraint)
}.

Record Config : Type := {
  base : ForkSpec.t;
  world : World
}.

(** ** Calls, completions and the runner's monad *)

(** A call the runner makes: the constraint or the solution called, the
    arguments, and how the call ended. *)
Inductive Call : Type :=
| world_snapshot (r : outcome string)
| world_revertAndSnapshot (snapshot : string) (r : outcome string)
| scenario_initializer (r : outcome value)
| constraint_solve (constraint : Constraint) (context : value)
                   (r : outcome (option (OneOrMany Solution)))
| scenario_forker (context : value) (r : outcome value)
| solution_call (solution : Solution) (ctx : value) (r : outcome value)
| constraint_check (constraint : Constraint) (ctx : value) (r : outcome unit)
| scenario_transformer (ctx : value) (r : outcome value)
| scenario_property (v ctx : value) (r : outcome (option ContractReceipt))
| BigNumber_toNumber (n : BigNumber) (r : outcome float).

(** What the runner owns besides its configuration: the field
    [this.worldSnapshot], undefined until the first run. *)
Record Machine : Type := {
  env : St;
  worldSnapshot : option string
}.

Record Reply (A : Type) : Type := {
  completed : completion A;
  machine : Machine;
  calls : list Call
}.

Definition M (A : Type) : Type := Machine -> Reply A.

Definition ret {A : Type} (a : A) : M A :=
  fun m => {| completed := Normal a; machine := m; calls := [] |}.

Definition return_ {A : Type} (r : Result.t) : M A :=
  fun m => {| completed := Return r; machine := m; calls := [] |}.

(** The calls [tr] were made before those of [r]. *)
Definition prepend {A : Type} (tr : list Call) (r : Reply A) : Reply A :=
  match r with
  | {| completed := c; machine := m; calls := tr' |} =>
      {| completed := c; machine := m; calls := tr ++ tr' |}
  end.

Definition bind {A B : Type} (c : M A) (k : A -> M B) : M B :=
  fun m =>
    match c m with
    | {| completed := Normal a; machine := m1; calls := tr |} =>
        prepend tr (k a m1)
    | {| completed := Return x; machine := m1; calls := tr |} =>
        {| completed := Return x; machine := m1; calls := tr |}
    | {| completed := Throw e; machine := m1; calls := tr |} =>
        {| completed := Throw e; machine := m1; calls := tr |}
    end.

(** [await f(...)], recorded as the call [label]. *)
Definition await {A : Type} (label : outcome A -> Call) (f : Async A) : M A :=
  fun m =>
    let (r, st) := f (env m) in
    {| completed := match r with Returned a => Normal a | Thrown e => Throw e end;
       machine := {| env := st; worldSnapshot := worldSnapshot m |};
       calls := [label r] |}.

(** [f(...)] started and left to settle, recorded as the call [label]: the
    promise it leaves, fulfilled or rejected. *)
Definition settle {A : Type} (label : outcome A -> Call) (f : Async A)
  : M (outcome A) :=
  fun m =>
    let (r, st) := f (env m) in
    {| completed := Normal r;
       machine := {| env := st; worldSnapshot := worldSnapshot m |};
       calls := [label r] |}.

(** [await promise] *)
Definition awaited {A : Type} (promise : outcome A) : M A :=
  fun m =>
    {| completed := match promise with Returned a => Normal a | Thrown e => Throw e end;
       machine := m;
       calls := [] |}.

(** An effect of the language itself, such as a conversion: it acts on the
    environment and may throw, and is no call of the runner. *)
Definition perform {A : Type} (f : Async A) : M A :=
  fun m =>
    let (r, st) := f (env m) in
    {| completed := match r with Returned a => Normal a | Thrown e => Throw e end;
       machine := {| env := st; worldSnapshot := worldSnapshot m |};
       calls := [] |}.

(** [promise.then(f)] *)
Definition then_ {A B : Type} (promise : outcome A) (f : A -> B) : outcome B :=
  match promise with
  | Returned a => Returned (f a)
  | Thrown e => Thrown e
  end.

Definition rejection {A : Type} (promise : outcome A) : list value :=
  match promise with
  | Returned _ => []
  | Thrown e => [e]
  end.

Definition fulfilment {A : Type} (promise : outcome A) : list A :=
  match promise with
  | Returned a => [a]
  | Thrown _ => []
  end.

(** [Promise.all(promises)], all the promises being settled: fulfilled with
    the values, in the order of the promises, when none is rejected;
    otherwise rejected with the rejection that came first in time, the one
    at the position [first] among the rejections taken in the order of the
    promises (the first of them when [first] is out of range). *)
Definition Promise_all {A : Type} (first : nat) (promises : list (outcome A))
  : outcome (list A) :=
  match flat_map rejection promises with
  | [] => Returned (flat_map fulfilment promises)
  | e :: rest => Thrown (nth first (e :: rest) e)
  end.

(** [await Promise.all(promises)] *)
Definition await_all {A : Type} (promises : list (outcome A)) : M (list A) :=
  fun m => awaited (Promise_all (first_rejection (env m)) promises) m.

(** A synchronous call of a library function. *)
Definition invoke {A : Type} (label : outcome A -> Call) (r : outcome A) : M A :=
  fun m =>
    {| completed := match r with Returned a => Normal a | Thrown e => Throw e end;
       machine := m;
       calls := [label r] |}.

Definition now : M float :=
  fun m => {| completed := Normal (Date_now (env m)); machine := m; calls := [] |}.

(** [if (this.worldSnapshot)]: the field is truthy when it holds a string
    that is not empty. *)
Definition is_set (field : option string) : bool :=
  match field with
  | Some h => truthy (VString h)
  | None => false
  end.

Definition handle_of (field : option string) : string :=
  match field with
  | Some h => h
  | None => EmptyString
  end.

Definition get_worldSnapshot : M (option string) :=
  fun m => {| completed := Normal (worldSnapshot m); machine := m; calls := [] |}.

Definition set_worldSnapshot (h : string) : M unit :=
  fun m => {| completed := Normal tt;
              machine := {| env := env m; worldSnapshot := Some h |};
              calls := [] |}.

(** [try { body } catch (e) { handler e } finally { finalizer }]: the
    finalizer runs however the body and the handler complete; when it
    completes normally the completion of the body (or of the handler) stands,
    otherwise its own replaces it. *)
Definition try_catch_finally {A B : Type}
    (body : M A) (handler : value -> M A) (finalizer : M B) : M (A * B) :=
  fun m =>
    let caught :=
      match body m with
      | {| completed := Throw e; machine := m1; calls := tr |} =>
          prepend tr (handler e m1)
      | r => r
      end in
    match caught with
    | {| completed := c; machine := m2; calls := tr |} =>
        match finalizer m2 with
        | {| completed := Normal b; machine := m3; calls := tr' |} =>
            {| completed :=
                 match c with
                 | Normal a => Normal (a, b)
                 | Return x => Return x
                 | Throw e => Throw e
                 end;
               machine := m3; calls := tr ++ tr' |}
        | {| completed := Return x; machine := m3; calls := tr' |} =>
            {| completed := Return x; machine := m3; calls := tr ++ tr' |}
        | {| completed := Throw e; machine := m3; calls := tr' |} =>
            {| completed := Throw e; machine := m3; calls := tr ++ tr' |}
        end
    end.

Notation "x <- c ;; k" := (bind c (fun x => k))
  (at level 100, c at next level, right associativity).
Notation "c ;;; k" := (bind c (fun _ => k))
  (at level 100, right associativity).

(** ** The functions of Runner.ts *)

(** [function* combos<T>(choices: T[][])]: the yields, in order. *)
Fixpoint combos {T : Type} (choices : list (list T)) : list (list T) :=
  match choices with
  | [] => [[]]
  | choices_0 :: rest =>
      flat_map (fun option => map (fun combo => option :: combo) (combos rest))
               choices_0
  end.

(** The position of a combo: for each choice list, the index of the option
    taken from it.  [positions choices] are the positions [combos] goes
    through, [select choices p] is the combo at the position [p], and
    [lex_lt] is the lexicographic order of positions, the first list's index
    being the most significant. *)
Definition positions {T : Type} (choices : list (list T)) : list (list nat) :=
  combos (map (fun c => seq 0 (List.length c)) choices).

Fixpoint select {T : Type} (choices : list (list T)) (position : list nat)
  : option (list T) :=
  match choices, position with
  | [], [] => Some []
  | c :: rest, i :: later =>
      match nth_error c i, select rest later with
      | Some x, Some combo => Some (x :: combo)
      | _, _ => None
      end
  | _, _ => None
  end.

Inductive lex_lt : list nat -> list nat -> Prop :=
| lex_head i j p q : i < j -> lex_lt (i :: p) (j :: q)
| lex_tail i p q : lex_lt p q -> lex_lt (i :: p) (i :: q).

(** [async function identity<T>(ctx: T, world: World): Promise<T>] *)
Definition identity : Solution :=
  fun ctx _ st => (Returned ctx, st).

(** [[].concat(v)] *)
Definition asList {T : Type} (v : OneOrMany T) : list T :=
  match v with
  | One x => [x]
  | Many l => l
  end.

(** [function mapSolution<T>(s: Solution<T> | Solution<T>[] | null)] *)
Definition mapSolution (s : option (OneOrMany Solution)) : list Solution :=
  match s with
  | None => [identity]
  | Some v => asList v
  end.

(** What [/] does to its right operand when the left one is a number.  A
    primitive converts without effect; a Symbol cannot be converted and a
    BigInt cannot be mixed with a number: a TypeError is thrown; an object
    is converted by its own [valueOf] and [toString]. *)
Definition ToNumber (v : value) : Async float :=
  fun st =>
    match v with
    | VUndefined => (Returned nan, st)
    | VNull => (Returned 0%float, st)
    | VBool b => (Returned (if b then 1 else 0)%float, st)
    | VNumber n => (Returned n, st)
    | VString s => (Returned (string_to_number s), st)
    | VSymbol _ | VBigInt _ => (Thrown (TypeError st), st)
    | VObject _ | VError _ _ _ _ _ => object_to_number v st
    end.

(** [private generateResult(base, scenario, startTime, totalGas,
    numSolutionSets, err?)].  The caller passes [VUndefined] for an [err] it
    leaves out, and in [numSolutionSets] whatever it has in that position.
    The fields of the Result are evaluated in the order of the object
    literal: the division, which converts [numSolutionSets], comes before
    the clock is read. *)
Definition generateResult (base : ForkSpec.t) (scenario : Scenario)
    (startTime : float) (totalGas : float) (numSolutionSets : value)
    (err : value) : M Result.t :=
  let diff :=
    if instanceof_AssertionError err then
      let actual := get_actual err in
      let expected := get_expected err in
      if negb (strict_equal actual expected) then Some (actual, expected)
      else None
    else None in
  divisor <- perform (ToNumber numSolutionSets) ;;
  t <- now ;;
  ret {| Result.base := ForkSpec.name base;
         Result.file :=
           match file scenario with
           | Some (String a f) => String a f
           | _ => name scenario
           end;
         Result.scenario := name scenario;
         Result.gasUsed := totalGas / divisor;
         Result.numSolutionSets := numSolutionSets;
         Result.elapsed := t - startTime;
         Result.error := or_else err VNull;
         Result.trace := if truthy err then get_stack err else VNull;
         Result.diff := diff |}.

(** [constructor(config: Config<T>)]: a runner made in the environment
    [st]; the constructor assigns [config] and leaves [worldSnapshot]
    undefined. *)
Definition new_Runner (st : St) : Machine :=
  {| env := st; worldSnapshot := None |}.

(** The variables of [run] that the combo loop assigns. *)
Record Locals : Type := {
  contextSnapshot : string;
  cumulativeGas : float;
  numSolutionSets : float
}.

Section Run.
Variable config : Config.
Variable scenario : Scenario.

(** [const { constraints = [] } = scenario] *)
Definition constraints_of : list Constraint :=
  match constraints scenario with
  | Some cs => cs
  | None => []
  end.

(** [constraints.map((c) => c.solve(...).then(mapSolution))]: every solve
    is started, in the order of the constraints, also after one that is
    rejected.  A solve is expected not to modify context or world: each is
    taken to settle before the next one starts. *)
Fixpoint startSolves (context : value) (cs : list Constraint)
  : M (list (outcome (list Solution))) :=
  match cs with
  | [] => ret []
  | c :: rest =>
      promise <- settle (constraint_solve c context)
                        (solve c (requirements scenario) context (world config)) ;;
      promises <- startSolves context rest ;;
      ret (then_ promise mapSolution :: promises)
  end.

(** [for (const solution of combo) ctx = (await solution(ctx, world)) || ctx] *)
Fixpoint applySolutions (combo : list Solution) (ctx : value) : M value :=
  match combo with
  | [] => ret ctx
  | solution :: rest =>
      r <- await (solution_call solution ctx) (solution ctx (world config)) ;;
      applySolutions rest (or_else r ctx)
  end.

(** [for (const constraint of constraints) await constraint.check(...)] *)
Fixpoint checkAll (cs : list Constraint) (ctx : value) : M unit :=
  match cs with
  | [] => ret tt
  | constraint :: rest =>
      await (constraint_check constraint ctx)
            (check constraint (requirements scenario) ctx (world config)) ;;;
      checkAll rest ctx
  end.

(** The [try] statement of the loop over the combos: the block, the
    [catch] clause and the [finally] clause.  It leaves the new values of
    [cumulativeGas], [numSolutionSets] and [contextSnapshot]. *)
Definition tryStatement (startTime : float) (ctx : value) (l : Locals)
  : M ((float * float) * string) :=
  try_catch_finally
    (v <- await (scenario_transformer ctx) (transformer scenario ctx) ;;
     txnReceipt <- await (scenario_property v ctx)
                         (property scenario v (world config) ctx) ;;
     gas <- match txnReceipt with
            | Some receipt =>
                g <- invoke (BigNumber_toNumber (cumulativeGasUsed receipt))
                            (toNumber (cumulativeGasUsed receipt)) ;;
                ret (cumulativeGas l + g)%float
            | None => ret (cumulativeGas l)
            end ;;
     ret (gas, (numSolutionSets l + 1)%float))
    (fun e =>
       r <- generateResult (base config) scenario startTime
                           (numSolutionSets l) e VUndefined ;;
       return_ r)
    (await (world_revertAndSnapshot (contextSnapshot l))
           (_revertAndSnapshot (world config) (contextSnapshot l))).

(** The body of the loop over the combos. *)
Definition comboBody (startTime : float) (context : value)
    (combo : list Solution) (l : Locals) : M Locals :=
  ctx <- await (scenario_forker context) (forker scenario context) ;;
  ctx <- applySolutions combo ctx ;;
  checkAll constraints_of ctx ;;;
  r <- tryStatement startTime ctx l ;;
  ret {| contextSnapshot := snd r;
         cumulativeGas := fst (fst r);
         numSolutionSets := snd (fst r) |}.

(** [for (const combo of combos(...)) { ... }]: a [return] or a throw in
    the body leaves the loop. *)
Fixpoint comboLoop (startTime : float) (context : value)
    (combos : list (list Solution)) (l : Locals) : M Locals :=
  match combos with
  | [] => ret l
  | combo :: rest =>
      l' <- comboBody startTime context combo l ;;
      comboLoop startTime context rest l'
  end.

(** [const baseSolutions: Solution<T>[][] = [[identity]]] *)
Definition baseSolutions : list (list Solution) := [[identity]].

(** [async run(scenario: Scenario<T, U>): Promise<Result>] *)
Definition run : M Result.t :=
  startTime <- now ;;
  snapshot <- get_worldSnapshot ;;
  (if is_set snapshot then
     s <- await (world_revertAndSnapshot (handle_of snapshot))
                (_revertAndSnapshot (world config) (handle_of snapshot)) ;;
     set_worldSnapshot s
   else
     s <- await world_snapshot (_snapshot (world config)) ;;
     set_worldSnapshot s) ;;;
  context <- await scenario_initializer (initializer scenario (world config)) ;;
  contextSnapshot <- await world_snapshot (_snapshot (world config)) ;;
  promises <- startSolves context constraints_of ;;
  solutionChoices <- await_all promises ;;
  l <- comboLoop startTime context (combos (baseSolutions ++ solutionChoices))
         {| contextSnapshot := contextSnapshot;
            cumulativeGas := 0;
            numSolutionSets := 0 |} ;;
  r <- generateResult (base config) scenario startTime
                      (cumulativeGas l) (VNumber (numSolutionSets l)) VUndefined ;;
  return_ r.

End Run.

(** ** Reading the list of calls *)

Definition thrown {A : Type} (r : outcome A) : option value :=
  match r with
  | Returned _ => None
  | Thrown e => Some e
  end.

(** What a call threw, if it threw. *)
Definition thrown_by (c : Call) : option value :=
  match c with
  | world_snapshot r => thrown r
  | world_revertAndSnapshot _ r => thrown r
  | scenario_initializer r => thrown r
  | constraint_solve _ _ r => thrown r
  | scenario_forker _ r => thrown r
  | solution_call _ _ r => thrown r
  | constraint_check _ _ r => thrown r
  | scenario_transformer _ r => thrown r
  | scenario_property _ _ r => thrown r
  | BigNumber_toNumber _ r => thrown r
  end.

Definition returned (c : Call) : bool :=
  match thrown_by c with
  | None => true
  | Some _ => false
  end.

(** The calls made inside the [try] block of the combo loop. *)
Definition in_try (c : Call) : bool :=
  match c with
  | scenario_transformer _ _ | scenario_property _ _ _ | BigNumber_toNumber _ _ => true
  | _ => false
  end.

(** The calls of an iteration made before its [try] block. *)
Definition before_try (c : Call) : bool :=
  match c with
  | scenario_forker _ _ | solution_call _ _ _ | constraint_check _ _ _ => true
  | _ => false
  end.

(** The calls made before the combo loop. *)
Definition in_setup (c : Call) : bool :=
  match c with
  | world_snapshot _ | world_revertAndSnapshot _ _ | scenario_initializer _
  | constraint_solve _ _ _ => true
  | _ => false
  end.

Definition is_solve (c : Call) : bool :=
  match c with
  | constraint_solve _ _ _ => true
  | _ => false
  end.

Definition is_property (c : Call) : bool :=
  match c with
  | scenario_property _ _ _ => true
  | _ => false
  end.

Definition is_revert (c : Call) : bool :=
  match c with
  | world_revertAndSnapshot _ _ => true
  | _ => false
  end.

(** The number of property calls that returned: the satisfied solution
    sets. *)
Definition satisfied (tr : list Call) : nat :=
  List.length (filter (fun c => is_property c && returned c) tr).

(** The gas the receipts reported, added up in the order of the calls from
    [acc], as [cumulativeGas +=] does. *)
Definition add_gas (acc : float) (c : Call) : float :=
  match c with
  | BigNumber_toNumber _ (Returned g) => (acc + g)%float
  | _ => acc
  end.

Definition reported_gas (acc : float) (tr : list Call) : float :=
  fold_left add_gas tr acc.

(** A counter that starts at [x] after [n] executions of [++]. *)
Fixpoint incremented (n : nat) (x : float) : float :=
  match n with
  | O => x
  | S k => incremented k (x + 1)%float
  end.

(** The snapshot handle the world returned last: [h] until a call to
    [_snapshot] or [_revertAndSnapshot] returns another. *)
Definition next_snapshot (h : string) (c : Call) : string :=
  match c with
  | world_snapshot (Returned h') => h'
  | world_revertAndSnapshot _ (Returned h') => h'
  | _ => h
  end.

Definition last_snapshot (h : string) (tr : list Call) : string :=
  fold_left next_snapshot tr h.

(** What the solves that returned resolved to, in the order of the calls. *)
Definition solve_result (c : Call) : list (option (OneOrMany Solution)) :=
  match c with
  | constraint_solve _ _ (Returned s) => [s]
  | _ => []
  end.

Definition solve_results (tr : list Call) : list (option (OneOrMany Solution)) :=
  flat_map solve_result tr.

(** ** The shape of the list of calls

    The calls of [run] follow the control flow of the code: calls that
    returned, up to the first call that threw; then nothing, or the solves
    started together with a solve that threw, or the world revert of the
    [finally] clause. *)

(** Calls of the kind [P] that all returned. *)
Definition quiet (P : Call -> bool) (tr : list Call) : Prop :=
  Forall (fun c => P c = true /\ returned c = true) tr.

(** A sequence of awaited calls with no [try] and no [return]: either all
    the calls returned, or the last one threw and its error propagates. *)
Inductive straight_ends {A : Type} (P : Call -> bool)
  : completion A -> list Call -> Prop :=
| ends_normal a tr :
    quiet P tr -> straight_ends P (Normal a) tr
| ends_throw e pre c :
    quiet P pre -> P c = true -> thrown_by c = Some e ->
    straight_ends P (Throw e) (pre ++ [c]).

Definition straight {A : Type} (P : Call -> bool) (c : M A) : Prop :=
  forall m, straight_ends P (completed (c m)) (calls (c m)).

(** The calls of the [try] block of an iteration entered with the locals
    [l], and what the block leaves: the new values of [cumulativeGas] and
    [numSolutionSets], or the error thrown. *)
Inductive try_trace (l : Locals) : outcome (float * float) -> list Call -> Prop :=
| try_no_receipt ctx v :
    try_trace l (Returned (cumulativeGas l, (numSolutionSets l + 1)%float))
      [scenario_transformer ctx (Returned v);
       scenario_property v ctx (Returned None)]
| try_receipt ctx v receipt g :
    try_trace l (Returned ((cumulativeGas l + g)%float, (numSolutionSets l + 1)%float))
      [scenario_transformer ctx (Returned v);
       scenario_property v ctx (Returned (Some receipt));
       BigNumber_toNumber (cumulativeGasUsed receipt) (Returned g)]
| try_transformer_throws ctx e :
    try_trace l (Thrown e) [scenario_transformer ctx (Thrown e)]
| try_property_throws ctx v e :
    try_trace l (Thrown e)
      [scenario_transformer ctx (Returned v); scenario_property v ctx (Thrown e)]
| try_toNumber_throws ctx v receipt e :
    try_trace l (Thrown e)
      [scenario_transformer ctx (Returned v);
       scenario_property v ctx (Returned (Some receipt));
       BigNumber_toNumber (cumulativeGasUsed receipt) (Thrown e)].

(** What the conversion of [e] by [/] comes to, in some state of the
    environment. *)
Definition converts (e : value) (o : outcome float) : Prop :=
  exists st, fst (ToNumber e st) = o.

(** The Result that the [catch] block returns for the error [e]. *)
Definition caught_result (l : Locals) (e : value) (r : Result.t) : Prop :=
  Result.numSolutionSets r = e /\
  (exists d, converts e (Returned d) /\
             Result.gasUsed r = (numSolutionSets l / d)%float) /\
  Result.error r = VNull /\
  Result.trace r = VNull /\
  Result.diff r = None.

(** The Result that [run] returns after the loop, left with the locals [l]. *)
Definition final_result (l : Locals) (r : Result.t) : Prop :=
  Result.numSolutionSets r = VNumber (numSolutionSets l) /\
  Result.gasUsed r = (cumulativeGas l / numSolutionSets l)%float /\
  Result.error r = VNull /\
  Result.trace r = VNull /\
  Result.diff r = None.

(** One iteration of the combo loop entered with the locals [l]. *)
Inductive body_shape (l : Locals) : completion Locals -> list Call -> Prop :=
| body_aborted e pre c :
    quiet before_try pre -> before_try c = true -> thrown_by c = Some e ->
    body_shape l (Throw e) (pre ++ [c])
| body_passed pre tr gas n h' :
    quiet before_try pre -> try_trace l (Returned (gas, n)) tr ->
    body_shape l
      (Normal {| contextSnapshot := h'; cumulativeGas := gas; numSolutionSets := n |})
      (pre ++ tr ++ [world_revertAndSnapshot (contextSnapshot l) (Returned h')])
| body_passed_revert_failed pre tr x e' :
    quiet before_try pre -> try_trace l (Returned x) tr ->
    body_shape l (Throw e')
      (pre ++ tr ++ [world_revertAndSnapshot (contextSnapshot l) (Thrown e')])
| body_caught pre tr e r h' :
    quiet before_try pre -> try_trace l (Thrown e) tr -> caught_result l e r ->
    body_shape l (Return r)
      (pre ++ tr ++ [world_revertAndSnapshot (contextSnapshot l) (Returned h')])
| body_caught_threw pre tr e e2 h' :
    quiet before_try pre -> try_trace l (Thrown e) tr -> converts e (Thrown e2) ->
    body_shape l (Throw e2)
      (pre ++ tr ++ [world_revertAndSnapshot (contextSnapshot l) (Returned h')])
| body_caught_revert_failed pre tr e e' :
    quiet before_try pre -> try_trace l (Thrown e) tr ->
    body_shape l (Throw e')
      (pre ++ tr ++ [world_revertAndSnapshot (contextSnapshot l) (Thrown e')]).

(** What the Result returned by the [catch] block holds for the error [e]. *)
Definition caught (e : value) (r : Result.t) : Prop :=
  Result.numSolutionSets r = e /\
  Result.error r = VNull /\
  Result.trace r = VNull /\
  Result.diff r = None.

(** How the list of calls ends when a call threw: with that call, when it
    was made outside the [try] block; with that call and the solves started
    after it, when it is a solve, and then [run] throws the error of one of
    these solves; with that call and the world revert of the [finally]
    clause, when it was made inside the [try] block, and then [run] returns
    the Result of the [catch] block, or throws what building that Result
    threw, or what the revert threw. *)
Inductive failure_tail {A : Type} : completion A -> list Call -> Prop :=
| tail_outside e c :
    thrown_by c = Some e -> in_try c = false ->
    failure_tail (Throw e) [c]
| tail_solve e c post x e' :
    thrown_by c = Some e -> is_solve c = true ->
    Forall (fun x => is_solve x = true) post ->
    In x (c :: post) -> thrown_by x = Some e' ->
    failure_tail (Throw e') (c :: post)
| tail_caught e c r h h' :
    thrown_by c = Some e -> in_try c = true -> caught e r ->
    (exists d, converts e (Returned d)) ->
    failure_tail (Return r) [c; world_revertAndSnapshot h (Returned h')]
| tail_caught_threw e c e2 h h' :
    thrown_by c = Some e -> in_try c = true -> converts e (Thrown e2) ->
    failure_tail (Throw e2) [c; world_revertAndSnapshot h (Returned h')]
| tail_caught_revert_failed e c h e' :
    thrown_by c = Some e -> in_try c = true ->
    failure_tail (Throw e') [c; world_revertAndSnapshot h (Thrown e')].

(** Every call of a [try] block in [tr] is followed, after calls of that
    block only, by a world revert to the snapshot that is current there;
    [h] is the current snapshot where [tr] starts. *)
Fixpoint reverts (h : string) (tr : list Call) : Prop :=
  match tr with
  | [] => True
  | c :: rest =>
      (in_try c = true ->
       exists mid rev rest',
         rest = mid ++ world_revertAndSnapshot h rev :: rest' /\
         Forall (fun x => in_try x = true) mid) /\
      reverts (next_snapshot h c) rest
  end.

(** The combo loop entered with the locals [l]. *)
Inductive loop_shape : Locals -> completion Locals -> list Call -> Prop :=
| loop_end l :
    loop_shape l (Normal l) []
| loop_next l l' tr c rest :
    body_shape l (Normal l') tr -> loop_shape l' c rest ->
    loop_shape l c (tr ++ rest)
| loop_exit l c tr :
    body_shape l c tr -> (forall l', c <> Normal l') ->
    loop_shape l c tr.

(** What [run] returns when no call threw. *)
Definition success (tr : list Call) (res : Result.t) : Prop :=
  satisfied tr =
    List.length (combos (baseSolutions ++ map mapSolution (solve_results tr))) /\
  Result.numSolutionSets res = VNumber (incremented (satisfied tr) 0) /\
  Result.gasUsed res = (reported_gas 0 tr / incremented (satisfied tr) 0)%float /\
  Result.error res = VNull /\
  Result.trace res = VNull /\
  Result.diff res = None.

(** The calls of one combo that applies the identity solution alone: the
    fork; the one solution call, which returns its argument; the calls of
    the [try] block; the world revert. *)
Definition one_identity_combo (body : list Call) : Prop :=
  (exists context e, body = [scenario_forker context (Thrown e)]) \/
  (exists context ctx tr h rev,
     body = scenario_forker context (Returned ctx)
            :: solution_call identity ctx (Returned ctx)
            :: tr ++ [world_revertAndSnapshot h rev] /\
     Forall (fun x => in_try x = true) tr).

(** The solution calls of the combo [combo] applied to [ctx], and how they
    complete: each solution of the combo is called, in the order of the
    combo, on the current context, until one throws; a truthy result becomes
    the current context, a falsy one leaves it as it was. *)
Inductive threaded : value -> list Solution -> list Call -> completion value -> Prop :=
| threaded_done ctx :
    threaded ctx [] [] (Normal ctx)
| threaded_throw ctx solution rest e :
    threaded ctx (solution :: rest) [solution_call solution ctx (Thrown e)] (Throw e)
| threaded_truthy ctx solution rest v tr c :
    truthy v = true -> threaded v rest tr c ->
    threaded ctx (solution :: rest) (solution_call solution ctx (Returned v) :: tr) c
| threaded_falsy ctx solution rest v tr c :
    truthy v = false -> threaded ctx rest tr c ->
    threaded ctx (solution :: rest) (solution_call solution ctx (Returned v) :: tr) c.

(** The checks of the constraints [cs] on [ctx]: one call for each
    constraint, in their order, until one throws. *)
Inductive checked (ctx : value) : list Constraint -> list Call -> completion unit -> Prop :=
| checked_done :
    checked ctx [] [] (Normal tt)
| checked_throw constraint rest e :
    checked ctx (constraint :: rest) [constraint_check constraint ctx (Thrown e)] (Throw e)
| checked_next constraint rest tr c :
    checked ctx rest tr c ->
    checked ctx (constraint :: rest)
      (constraint_check constraint ctx (Returned tt) :: tr) c.

(** The calls of the [try] block on [ctx], and whether the block came to
    its end: the transformer on [ctx], then the property on what the
    transformer returned and [ctx], then [toNumber] on the receipt when
    there is one. *)
Inductive block (ctx : value) : list Call -> bool -> Prop :=
| block_no_receipt v :
    block ctx [scenario_transformer ctx (Returned v);
               scenario_property v ctx (Returned None)] true
| block_receipt v receipt g :
    block ctx [scenario_transformer ctx (Returned v);
               scenario_property v ctx (Returned (Some receipt));
               BigNumber_toNumber (cumulativeGasUsed receipt) (Returned g)] true
| block_transformer_throws e :
    block ctx [scenario_transformer ctx (Thrown e)] false
| block_property_throws v e :
    block ctx [scenario_transformer ctx (Returned v);
               scenario_property v ctx (Thrown e)] false
| block_toNumber_throws v receipt e :
    block ctx [scenario_transformer ctx (Returned v);
               scenario_property v ctx (Returned (Some receipt));
               BigNumber_toNumber (cumulativeGasUsed receipt) (Thrown e)] false.

(** The calls of the iteration of the loop for [combo], and whether the
    loop goes on after it: the fork of [context]; the solutions of the
    combo, threaded from the forked context; the checks of the constraints
    [cs] on the context the solutions leave; the [try] block on that
    context; the world revert.  A fork, a solution or a check that throws
    is the last call.  The loop goes on when the block came to its end and
    the revert returned. *)
Inductive iteration (context : value) (cs : list Constraint) (combo : list Solution)
  : list Call -> bool -> Prop :=
| iteration_fork_throws e :
    iteration context cs combo [scenario_forker context (Thrown e)] false
| iteration_solution_throws ctx0 solutions e :
    threaded ctx0 combo solutions (Throw e) ->
    iteration context cs combo
      (scenario_forker context (Returned ctx0) :: solutions) false
| iteration_check_throws ctx0 solutions ctx checks e :
    threaded ctx0 combo solutions (Normal ctx) ->
    checked ctx cs checks (Throw e) ->
    iteration context cs combo
      (scenario_forker context (Returned ctx0) :: solutions ++ checks) false
| iteration_tried ctx0 solutions ctx checks tr passed h rev :
    threaded ctx0 combo solutions (Normal ctx) ->
    checked ctx cs checks (Normal tt) ->
    block ctx tr passed ->
    iteration context cs combo
      (scenario_forker context (Returned ctx0)
       :: solutions ++ checks ++ tr ++ [world_revertAndSnapshot h rev])
      (passed && match rev with Returned _ => true | Thrown _ => false end).

(** The calls of the loop over [combos]: the iterations for the combos, in
    their order, up to and including the first after which the loop does not
    go on. *)
Inductive iterations (context : value) (cs : list Constraint)
  : list (list Solution) -> list Call -> Prop :=
| iterations_done :
    iterations context cs [] []
| iterations_last combo rest tr :
    iteration context cs combo tr false ->
    iterations context cs (combo :: rest) tr
| iterations_next combo rest tr tr' :
    iteration context cs combo tr true ->
    iterations context cs rest tr' ->
    iterations context cs (combo :: rest) (tr ++ tr').

(** ** More readings of the list of calls *)

(** The world reset that [run] starts with: a revert to [this.worldSnapshot]
    when the field is truthy, a first snapshot otherwise. *)
Definition reset_call (field : option string) (o : outcome string) : Call :=
  if is_set field then world_revertAndSnapshot (handle_of field) o
  else world_snapshot o.

(** What the field [this.worldSnapshot] holds after a world call that was
    assigned to it: the handle returned, or what it held when the call
    threw. *)
Definition assigned (field : option string) (o : outcome string) : option string :=
  match o with
  | Returned h => Some h
  | Thrown _ => field
  end.

(** The calls [run] makes once the context snapshot is taken, [context]
    being the context of the initializer: solves and forks are given
    [context]; there is no further initializer call and no further
    [_snapshot] call. *)
Definition after_context (context : value) (c : Call) : Prop :=
  match c with
  | scenario_forker x _ | constraint_solve _ x _ => x = context
  | scenario_initializer _ | world_snapshot _ => False
  | _ => True
  end.

(** The fields of a Result that name what was run. *)
Definition labelled (config : Config) (scenario : Scenario) (res : Result.t) : Prop :=
  Result.base res = ForkSpec.name (base config) /\
  Result.scenario res = name scenario /\
  Result.file res =
    match file scenario with
    | Some (String a f) => String a f
    | _ => name scenario
    end.

(** A computation that leaves [this.worldSnapshot] as it is, makes calls of
    the kind [Q] only, and returns Results of the kind [P] only. *)
Definition tame {A : Type} (Q : Call -> Prop) (P : Result.t -> Prop) (c : M A) : Prop :=
  forall m,
    worldSnapshot (machine (c m)) = worldSnapshot m /\
    Forall Q (calls (c m)) /\
    forall res, completed (c m) = Return res -> P res.

(** [run], call by call, up to the context snapshot: the world reset, the
    initializer, the context snapshot, and then calls for the context of
    the initializer.  A call that throws is the last one. *)
Definition anatomy (m : Machine) (r : Reply Result.t) : Prop :=
  exists o rest,
    calls r = reset_call (worldSnapshot m) o :: rest /\
    worldSnapshot (machine r) = assigned (worldSnapshot m) o /\
    match o with
    | Thrown _ => rest = []
    | Returned _ =>
        exists oi rest1,
          rest = scenario_initializer oi :: rest1 /\
          match oi with
          | Thrown _ => rest1 = []
          | Returned context =>
              exists os rest2,
                rest1 = world_snapshot os :: rest2 /\
                match os with
                | Thrown _ => rest2 = []
                | Returned _ => Forall (after_context context) rest2
                end
          end
    end.

(** Every property call in [tr] comes right after the transformer call on
    the same context that returned its first argument, and that right after
    the checks of the constraints [cs] on that context, one for each
    constraint in their order, all of which returned; [before] are the calls
    made before [tr]. *)
Fixpoint guarded (cs : list Constraint) (before tr : list Call) : Prop :=
  match tr with
  | [] => True
  | c :: rest =>
      match c with
      | scenario_property v ctx _ =>
          exists earlier,
            before = earlier
                     ++ map (fun constraint => constraint_check constraint ctx (Returned tt)) cs
                     ++ [scenario_transformer ctx (Returned v)]
      | _ => True
      end /\
      guarded cs (before ++ [c]) rest
  end.

(** [run] throws before the loop: a call threw, and nothing follows it
    but, when it is a solve, the solves started after it.  [run] throws the
    error of that call, or, after solves, the error of the one among them
    that was rejected first. *)
Definition setup_failed (r : Reply Result.t) : Prop :=
  exists e pre c post,
    calls r = pre ++ c :: post /\
    quiet in_setup pre /\ in_setup c = true /\ thrown_by c = Some e /\
    ((post = [] /\ completed r = Throw e) \/
     (is_solve c = true /\ Forall (fun x => is_solve x = true) post /\
      exists x e', In x (c :: post) /\ thrown_by x = Some e' /\
                   completed r = Throw e')).

(** The outcome that a call records is what the function called gives on
    the arguments recorded, in some state of the environment. *)
Definition genuine (config : Config) (scenario : Scenario) (c : Call) : Prop :=
  match c with
  | world_snapshot r =>
      exists st, fst (_snapshot (world config) st) = r
  | world_revertAndSnapshot h r =>
      exists st, fst (_revertAndSnapshot (world config) h st) = r
  | scenario_initializer r =>
      exists st, fst (initializer scenario (world config) st) = r
  | constraint_solve constraint context r =>
      exists st,
        fst (solve constraint (requirements scenario) context (world config) st) = r
  | scenario_forker context r =>
      exists st, fst (forker scenario context st) = r
  | solution_call solution ctx r =>
      exists st, fst (solution ctx (world config) st) = r
  | constraint_check constraint ctx r =>
      exists st,
        fst (check constraint (requirements scenario) ctx (world config) st) = r
  | scenario_transformer ctx r =>
      exists st, fst (transformer scenario ctx st) = r
  | scenario_property v ctx r =>
      exists st, fst (property scenario v (world config) ctx st) = r
  | BigNumber_toNumber n r => toNumber n = r
  end.

(** The solves of the constraints [cs] on [context] that returned
    [results]: one call for each constraint, in their order. *)
Definition solves (context : value) (cs : list Constraint)
    (results : list (option (OneOrMany Solution))) : list Call :=
  map (fun cr => constraint_solve (fst cr) context (Returned (snd cr)))
      (combine cs results).

(** [run] got to the loop: the world reset, the initializer and the context
    snapshot returned; each constraint was solved once on the context of the
    initializer, in the order of the constraints, and every solve returned;
    then come the iterations for the combos of the group [[identity]]
    followed by the normalized results, in the order of [combos]. *)
Definition looped (config : Config) (scenario : Scenario) (m : Machine)
    (r : Reply Result.t) : Prop :=
  exists h0 context h results body,
    List.length results = List.length (constraints_of scenario) /\
    calls r =
      reset_call (worldSnapshot m) (Returned h0)
      :: scenario_initializer (Returned context)
      :: world_snapshot (Returned h)
      :: solves context (constraints_of scenario) results ++ body /\
    iterations context (constraints_of scenario)
      (combos (baseSolutions ++ map mapSolution results)) body.

(** The call [c] is made on the context [x]: a solution, a check or the
    transformer. *)
Definition given (x : value) (c : Call) : Prop :=
  match c with
  | solution_call _ ctx _ | constraint_check _ ctx _ | scenario_transformer ctx _ =>
      ctx = x
  | _ => False
  end.

(** After each solution call that returned, another call follows, made on
    the context that the solution left: what it returned when that is
    truthy, the context it was called on otherwise.  [prev] is the context
    left by the solution call right before [tr], if that is what comes
    before [tr]. *)
Fixpoint handed (prev : option value) (tr : list Call) : Prop :=
  match tr with
  | [] => prev = None
  | c :: rest =>
      match prev with
      | Some x => given x c
      | None => True
      end /\
      handed match c with
             | solution_call _ ctx (Returned v) => Some (or_else v ctx)
             | _ => None
             end rest
  end.

(** [run], started with the runner [m], either fails before the loop, or
    is its setup followed by the loop over the combos of the solved
    choices. *)
Definition run_outcome (config : Config) (scenario : Scenario) (m : Machine)
    (r : Reply Result.t) : Prop :=
  setup_failed r
  \/
  (exists setup startTime context m',
     quiet in_setup setup /\
     List.length (solve_results setup) = List.length (constraints_of scenario) /\
     let lp :=
       comboLoop config scenario startTime context
         (combos (baseSolutions ++ map mapSolution (solve_results setup)))
         {| contextSnapshot := last_snapshot EmptyString setup;
            cumulativeGas := 0; numSolutionSets := 0 |} m' in
     calls r = setup ++ calls lp /\
     match completed lp with
     | Normal l => exists res, completed r = Return res /\ final_result l res
     | Return res => completed r = Return res
     | Throw e => completed r = Throw e
     end /\
     exists h0 h,
       setup =
         reset_call (worldSnapshot m) (Returned h0)
         :: scenario_initializer (Returned context)
         :: world_snapshot (Returned h)
         :: solves context (constraints_of scenario) (solve_results setup)).

End Model.

Arguments world_snapshot {_ U} r.
Arguments world_revertAndSnapshot {_ U} snapshot r.
Arguments scenario_initializer {_ U} r.
Arguments constraint_solve {_ U} constraint context r.
Arguments scenario_forker {_ U} context r.
Arguments solution_call {_ U} solution ctx r.
Arguments constraint_check {_ U} constraint ctx r.
Arguments scenario_transformer {_ U} ctx r.
Arguments scenario_property {_ U} v ctx r.
Arguments BigNumber_toNumber {_ U} n r.
Arguments ret {_ U A} a.
Arguments return_ {_ U A} r.
Arguments perform {_ U A} f.
Arguments awaited {_ U A} promise.
Arguments await_all {_ U A} promises.
Arguments now {_ U}.
Arguments get_worldSnapshot {_ U}.
Arguments set_worldSnapshot {_ U} h.
Arguments reset_call {_ U} field o.
Arguments ToNumber {_} v st : simpl never.
Arguments thrown_by {_ U} c.
Arguments returned {_ U} c.
Arguments in_try {_ U} c.
Arguments before_try {_ U} c.
Arguments in_setup {_ U} c.
Arguments is_solve {_ U} c.
Arguments is_property {_ U} c.
Arguments is_revert {_ U} c.
Arguments add_gas {_ U} acc c.
Arguments next_snapshot {_ U} h c.
Arguments solve_result {_ U} c.
Arguments after_context {_ U} context c.
Arguments given {_ U} x c.

(** * A world with a counter, and scenarios on it

    The world of the examples holds a counter that solutions bump, the
    counters it has saved (a snapshot handle names a saved counter), and the
    number of times the property stub was called.  An error object converts
    to NaN, as [Error.prototype.toString] makes it; any other object of this
    world has no conversion to a primitive.  Of several rejected solves, the
    one at the position of the counter came first. *)

Record CounterWorld : Type := {
  counter : nat;
  store : list nat;
  property_calls : nat
}.

#[export] Instance counter_runtime : Runtime := {|
  St := CounterWorld;
  BigNumber := float;
  toNumber := fun n => Returned n;
  Date_now := fun _ => 0%float;
  string_to_number := fun _ => nan;
  object_to_number :=
    fun v st =>
      match v with
      | VError _ _ _ _ _ => (Returned nan, st)
      | _ => (Thrown (VError 3 false "TypeError: Cannot convert object to primitive value"
                             VUndefined VUndefined), st)
      end;
  TypeError :=
    fun _ => VError 4 false "TypeError: Cannot convert to a number" VUndefined VUndefined;
  first_rejection := counter
|}.

(** The handle of the [n]-th saved counter: [n + 1] letters. *)
Fixpoint handle (n : nat) : string :=
  match n with
  | O => String "s"%char EmptyString
  | S k => String "s"%char (handle k)
  end.

Definition save (c : nat) (st : CounterWorld) : outcome string * CounterWorld :=
  (Returned (handle (List.length (store st))),
   {| counter := c; store := store st ++ [c];
      property_calls := property_calls st |}).

Definition counter_world : World := {|
  _snapshot := fun st => save (counter st) st;
  _revertAndSnapshot := fun h st => save (nth (String.length h - 1) (store st) 0) st
|}.

Definition counter_config : Config :=
  {| base := {| ForkSpec.name := "mainnet" |}; world := counter_world |}.

Definition m0 : Machine :=
  {| env := {| counter := 0; store := []; property_calls := 0 |};
     worldSnapshot := None |}.

(** A solution that bumps the world's counter and resolves to nothing. *)
Definition bump : Solution :=
  fun _ _ st =>
    (Returned VUndefined,
     {| counter := S (counter st); store := store st;
        property_calls := property_calls st |}).

(** A solution that resolves to the new context [v]. *)
Definition set_context (v : value) : Solution :=
  fun _ _ st => (Returned v, st).

Definition called (st : CounterWorld) : CounterWorld :=
  {| counter := counter st; store := store st;
     property_calls := S (property_calls st) |}.

Definition unmet : value :=
  VError 1 false "Error: unmet" VUndefined VUndefined.

Definition assertion : value :=
  VError 2 true "AssertionError: expected 1 to equal 2" (VNumber 1) (VNumber 2).

Definition scenario_with
    (property : value -> World -> value -> Async (option ContractReceipt))
    (constraints : option (list (Constraint unit))) : Scenario unit :=
  {| name := "scenario";
     file := None;
     requirements := tt;
     initializer := fun _ st => (Returned (VObject 0), st);
     forker := fun context st => (Returned context, st);
     transformer := fun ctx st => (Returned ctx, st);
     property := property;
     constraints := constraints |}.

Definition solved_by (s : option (OneOrMany Solution)) : Constraint unit :=
  {| solve := fun _ _ _ st => (Returned s, st);
     check := fun _ _ _ st => (Returned tt, st) |}.

Definition passes : value -> World -> value -> Async (option ContractReceipt) :=
  fun _ _ _ st => (Returned None, called st).

(** A constraint whose solution bumps the counter and whose check throws. *)
Definition never_met : Constraint unit :=
  {| solve := fun _ _ _ st => (Returned (Some (One bump)), st);
     check := fun _ _ _ st => (Thrown unmet, st) |}.

Definition check_fails : Scenario unit :=
  scenario_with passes (Some [ never_met ]).

(** No constraint; the property fails an assertion. *)
Definition property_asserts : Scenario unit :=
  scenario_with (fun _ _ _ st => (Thrown assertion, called st)) None.

(** A constraint that solves to the empty array. *)
Definition unsatisfiable : Scenario unit :=
  scenario_with passes (Some [ solved_by (Some (Many [])) ]).

(** A constraint with one solution, which replaces the context. *)
Definition one_solution : Scenario unit :=
  scenario_with passes (Some [ solved_by (Some (One (set_context (VNumber 1)))) ]).

(** No constraint; the property passes. *)
Definition unconstrained : Scenario unit :=
  scenario_with passes None.

(** The number that a context is, NaN when it is not a number. *)
Definition number_of (v : value) : float :=
  match v with
  | VNumber n => n
  | _ => nan
  end.

(** Two combos, whose receipts report the gas 100 and 300. *)
Definition two_receipts : Scenario unit :=
  scenario_with
    (fun _ _ ctx st =>
       (Returned (Some {| cumulativeGasUsed := number_of ctx |}), called st))
    (Some [ solved_by (Some (Many [ set_context (VNumber 100);
                                    set_context (VNumber 300) ])) ]).

(** Three combos; the property fails on the second. *)
Definition second_fails : Scenario unit :=
  scenario_with
    (fun _ _ ctx st =>
       (if strict_equal ctx (VNumber 2) then Thrown unmet else Returned None,
        called st))
    (Some [ solved_by (Some (Many [ set_context (VNumber 1);
                                    set_context (VNumber 2);
                                    set_context (VNumber 3) ])) ]).

(** Two constraints; the solve of the first is rejected. *)
Definition unsolvable : Constraint unit :=
  {| solve := fun _ _ _ st => (Thrown unmet, st);
     check := fun _ _ _ st => (Returned tt, st) |}.

Definition solve_fails : Scenario unit :=
  scenario_with passes (Some [ unsolvable; solved_by None ]).

(** Two constraints: the first solves to a choice of two solutions, which
    replace the context; the second to one solution, which bumps the
    counter, and its check counts as a property call does. *)
Definition choice_of_two : Constraint unit :=
  solved_by (Some (Many [ set_context (VNumber 1); set_context (VNumber 2) ])).

Definition bumping : Constraint unit :=
  {| solve := fun _ _ _ st => (Returned (Some (One bump)), st);
     check := fun _ _ _ st => (Returned tt, called st) |}.

Definition two_constraints : Scenario unit :=
  scenario_with (fun _ _ _ st => (Returned None, st))
    (Some [ choice_of_two; bumping ]).

(** Constraints whose solutions resolve to 0, the empty string, false and
    null, and one whose solution bumps the counter and resolves to
    nothing. *)
Definition resolves_to (v : value) : Constraint unit :=
  solved_by (Some (One (set_context v))).

Definition falsy_results : Scenario unit :=
  scenario_with passes
    (Some [ resolves_to (VNumber 0); resolves_to (VString EmptyString);
            resolves_to (VBool false); resolves_to VNull; bumping ]).





(** A constraint whose solution resolves to the number 0. *)
Definition falsy_solution : Scenario unit :=
  scenario_with passes (Some [ solved_by (Some (One (set_context (VNumber 0)))) ]).

(** The property call of [second_fails] that throws. *)
Definition second_failure : Call unit :=
  scenario_property (VNumber 2) (VNumber 2) (Thrown unmet).

(** The calls of [run] on [property_asserts]: those before the property
    call, the property call, and those after it. *)
Definition asserts_before : list (Call unit) :=
  [ world_snapshot (Returned (handle 0));
    scenario_initializer (Returned (VObject 0));
    world_snapshot (Returned (handle 1));
    scenario_forker (VObject 0) (Returned (VObject 0));
    solution_call identity (VObject 0) (Returned (VObject 0));
    scenario_transformer (VObject 0) (Returned (VObject 0)) ].

Definition asserts_failure : Call unit :=
  scenario_property (VObject 0) (VObject 0) (Thrown assertion).

Definition asserts_after : list (Call unit) :=
  [ world_revertAndSnapshot (handle 1) (Returned (handle 2)) ].

(** * Properties *)

Section Combos.

Lemma combos_cons (T : Type) (choices_0 : list T) (rest : list (list T)) :
  combos (choices_0 :: rest) =
  flat_map (fun option => map (fun combo => option :: combo) (combos rest)) choices_0.
Proof. reflexivity. Qed.

Lemma length_flat_map_const (A B : Type) (f : A -> list B) (l : list A) n :
  (forall a, List.length (f a) = n) -> List.length (flat_map f l) = List.length l * n.
Proof.
  intros Hf. induction l as [ | a l IH ]; simpl; [ reflexivity | ].
  rewrite length_app, Hf, IH. reflexivity.
Qed.

(** The number of combos is the product of the sizes of the choice lists. *)
Lemma combos_length (T : Type) (choices : list (list T)) :
  List.length (combos choices) =
  fold_right (fun c n => List.length c * n) 1 choices.
Proof.
  induction choices as [ | c rest IH ]; [ reflexivity | ].
  rewrite combos_cons. simpl fold_right. rewrite <- IH.
  apply length_flat_map_const. intros a. apply length_map.
Qed.

Lemma combos_nonempty (T : Type) (choices : list (list T)) :
  Forall (fun c => c <> []) choices -> 1 <= List.length (combos choices).
Proof.
  intros F. rewrite combos_length.
  induction F as [ | c rest Nc F IH ]; simpl; [ lia | ].
  destruct c as [ | x c ]; [ congruence | ]. simpl. lia.
Qed.

(** A combo takes one option from each choice list, in the order of the
    lists. *)
Lemma combos_in (T : Type) (choices : list (list T)) (combo : list T) :
  In combo (combos choices) <-> Forall2 (fun x c => In x c) combo choices.
Proof.
  revert combo. induction choices as [ | c rest IH ]; intros combo.
  - simpl. split.
    + intros [ <- | [] ]. constructor.
    + intros F. inversion F. left. reflexivity.
  - rewrite combos_cons, in_flat_map. split.
    + intros (x & Ix & Ic). apply in_map_iff in Ic.
      destruct Ic as (tl & <- & It). constructor; [ exact Ix | ].
      apply IH. exact It.
    + intros F. inversion F as [ | x c' tl rest' Ix Ft ]; subst.
      exists x. split; [ exact Ix | ]. apply in_map. apply IH. exact Ft.
Qed.

(** *** The order of the combos *)

Lemma sorted_app (A : Type) (R : A -> A -> Prop) (a b : list A) :
  StronglySorted R a -> StronglySorted R b ->
  (forall x y, In x a -> In y b -> R x y) ->
  StronglySorted R (a ++ b).
Proof.
  intros Sa Sb Cross. induction Sa as [ | x a Sa IH Fx ]; simpl; [ exact Sb | ].
  constructor.
  - apply IH. intros u v Iu Iv. apply Cross; [ right; exact Iu | exact Iv ].
  - apply Forall_app. split; [ exact Fx | ].
    apply Forall_forall. intros y Iy. apply Cross; [ left; reflexivity | exact Iy ].
Qed.

Lemma sorted_seq (start len : nat) : StronglySorted lt (seq start len).
Proof.
  revert start. induction len as [ | len IH ]; intros start; simpl; constructor.
  - apply IH.
  - apply Forall_forall. intros y Iy. apply in_seq in Iy. lia.
Qed.

Lemma sorted_map_cons (i : nat) (P : list (list nat)) :
  StronglySorted lex_lt P -> StronglySorted lex_lt (map (cons i) P).
Proof.
  induction 1 as [ | p P SP IH Fp ]; simpl; constructor; [ exact IH | ].
  apply Forall_map. revert Fp. apply Forall_impl. intros q. apply lex_tail.
Qed.

Lemma sorted_blocks (heads : list nat) (P : list (list nat)) :
  StronglySorted lt heads -> StronglySorted lex_lt P ->
  StronglySorted lex_lt (flat_map (fun i => map (cons i) P) heads).
Proof.
  intros Sh SP. induction Sh as [ | i heads Sh IH Fi ]; simpl; [ constructor | ].
  apply sorted_app; [ apply sorted_map_cons; exact SP | exact IH | ].
  intros x y Ix Iy. apply in_map_iff in Ix. destruct Ix as (p & <- & _).
  apply in_flat_map in Iy. destruct Iy as (j & Ij & Iy).
  apply in_map_iff in Iy. destruct Iy as (q & <- & _).
  apply lex_head. rewrite Forall_forall in Fi. exact (Fi j Ij).
Qed.

Lemma positions_sorted (T : Type) (choices : list (list T)) :
  StronglySorted lex_lt (positions choices).
Proof.
  unfold positions. induction choices as [ | c rest IH ]; simpl.
  - repeat constructor.
  - apply sorted_blocks; [ apply sorted_seq | exact IH ].
Qed.

Lemma positions_in (T : Type) (choices : list (list T)) (p : list nat) :
  In p (positions choices) <-> Forall2 (fun i c => i < List.length c) p choices.
Proof.
  unfold positions. revert p. induction choices as [ | c rest IH ]; intros p.
  - simpl. split.
    + intros [ <- | [] ]. constructor.
    + intros F. inversion F. left. reflexivity.
  - simpl map. rewrite combos_cons, in_flat_map. split.
    + intros (i & Ii & Ip). apply in_map_iff in Ip. destruct Ip as (q & <- & Iq).
      apply in_seq in Ii. constructor; [ lia | ]. apply IH. exact Iq.
    + intros F. inversion F as [ | i c' q rest' Li Fq ]; subst.
      exists i. split; [ apply in_seq; lia | ]. apply in_map. apply IH. exact Fq.
Qed.

Lemma select_blocks (T : Type) (pre c : list T) (rest : list (list T))
    (C : list (list T)) (P : list (list nat)) :
  map Some C = map (select rest) P ->
  map Some (flat_map (fun option => map (fun combo => option :: combo) C) c) =
  map (select ((pre ++ c) :: rest))
      (flat_map (fun i => map (cons i) P) (seq (List.length pre) (List.length c))).
Proof.
  intros E. revert pre. induction c as [ | x c IH ]; intros pre; [ reflexivity | ].
  simpl flat_map. rewrite !map_app. f_equal.
  - rewrite !map_map.
    transitivity (map (fun p => option_map (cons x) (select rest p)) P).
    + rewrite <- (map_map (select rest) (option_map (cons x))), <- E, map_map.
      reflexivity.
    + apply map_ext. intros p. simpl.
      rewrite nth_error_app2 by lia. rewrite Nat.sub_diag. simpl.
      destruct (select rest p); reflexivity.
  - specialize (IH (pre ++ [x])).
    rewrite <- app_assoc, length_app, Nat.add_1_r in IH. exact IH.
Qed.

Lemma combos_select (T : Type) (choices : list (list T)) :
  map Some (combos choices) = map (select choices) (positions choices).
Proof.
  unfold positions. induction choices as [ | c rest IH ]; [ reflexivity | ].
  simpl map at 3. rewrite !combos_cons.
  exact (select_blocks [] c rest _ _ IH).
Qed.

(** C6.  For every ordered list of choice lists, [combos] yields every
    combination (one option of each list, in the order of the lists), once
    per position, in head-list-major order: the k-th combo is the one at the
    k-th position in the lexicographic order over the lists' order.  For
    [[A],[X,Y]] it yields [A,X] then [A,Y]; for no choice list it yields the
    one empty combination. *)
Theorem combos_head_list_major (T : Type) (choices : list (list T)) :
  combos (@nil (list T)) = [[]] /\
  (forall A X Y : T, combos [[A]; [X; Y]] = [[A; X]; [A; Y]]) /\
  (forall combo,
     In combo (combos choices) <-> Forall2 (fun x c => In x c) combo choices) /\
  map Some (combos choices) = map (select choices) (positions choices) /\
  StronglySorted lex_lt (positions choices) /\
  (forall p,
     In p (positions choices) <-> Forall2 (fun i c => i < List.length c) p choices).
Proof.
  split; [ reflexivity | ]. split; [ reflexivity | ].
  split; [ apply combos_in | ]. split; [ apply combos_select | ].
  split; [ apply positions_sorted | apply positions_in ].
Qed.

End Combos.

Section Monad.
Context `{Runtime}.
Variable U : Type.
Local Abbreviation M := (M U).
Local Abbreviation Call := (Call U).
Local Abbreviation Reply := (Reply U).

(** ** Equations of the monad *)

Lemma bind_normal {A B : Type} (c : M A) (k : A -> M B) m a :
  completed (c m) = Normal a ->
  bind c k m = prepend (calls (c m)) (k a (machine (c m))).
Proof.
  unfold bind. destruct (c m) as [x m1 tr]. simpl. intros ->. reflexivity.
Qed.

Lemma bind_throw {A B : Type} (c : M A) (k : A -> M B) m e :
  completed (c m) = Throw e ->
  bind c k m = {| completed := Throw e; machine := machine (c m); calls := calls (c m) |}.
Proof.
  unfold bind. destruct (c m) as [x m1 tr]. simpl. intros ->. reflexivity.
Qed.

Lemma bind_return {A B : Type} (c : M A) (k : A -> M B) m r :
  completed (c m) = Return r ->
  bind c k m = {| completed := Return r; machine := machine (c m); calls := calls (c m) |}.
Proof.
  unfold bind. destruct (c m) as [x m1 tr]. simpl. intros ->. reflexivity.
Qed.

Lemma prepend_completed {A : Type} tr (r : Reply A) :
  completed (prepend tr r) = completed r.
Proof. destruct r. reflexivity. Qed.

Lemma prepend_calls {A : Type} tr (r : Reply A) :
  calls (prepend tr r) = tr ++ calls r.
Proof. destruct r. reflexivity. Qed.

Lemma bind_await {A B : Type} (label : outcome A -> Call) (f : Async A)
    (k : A -> M B) m :
  bind (await label f) k m =
  match f (env m) with
  | (Returned a, st) =>
      prepend [label (Returned a)]
              (k a {| env := st; worldSnapshot := worldSnapshot m |})
  | (Thrown e, st) =>
      {| completed := Throw e;
         machine := {| env := st; worldSnapshot := worldSnapshot m |};
         calls := [label (Thrown e)] |}
  end.
Proof.
  unfold bind, await. destruct (f (env m)) as [[a | e] st]; reflexivity.
Qed.

Lemma prepend_nil {A : Type} (r : Reply A) : prepend [] r = r.
Proof. destruct r. reflexivity. Qed.

Lemma bind_settle {A B : Type} (label : outcome A -> Call) (f : Async A)
    (k : outcome A -> M B) m :
  bind (settle label f) k m =
  prepend [label (fst (f (env m)))]
          (k (fst (f (env m)))
             {| env := snd (f (env m)); worldSnapshot := worldSnapshot m |}).
Proof. unfold bind, settle. destruct (f (env m)) as [r st]. reflexivity. Qed.

Lemma bind_awaited_returned {A B : Type} (a : A) (k : A -> M B) m :
  bind (awaited (Returned a)) k m = k a m.
Proof. unfold bind, awaited. apply prepend_nil. Qed.

Lemma bind_awaited_thrown {A B : Type} e (k : A -> M B) m :
  bind (awaited (Thrown e)) k m =
  {| completed := Throw e; machine := m; calls := [] |}.
Proof. reflexivity. Qed.

Lemma bind_perform {A B : Type} (f : Async A) (k : A -> M B) m :
  bind (perform f) k m =
  match f (env m) with
  | (Returned a, st) => k a {| env := st; worldSnapshot := worldSnapshot m |}
  | (Thrown e, st) =>
      {| completed := Throw e;
         machine := {| env := st; worldSnapshot := worldSnapshot m |};
         calls := [] |}
  end.
Proof.
  unfold bind, perform. destruct (f (env m)) as [[a | e] st]; [ | reflexivity ].
  apply prepend_nil.
Qed.

Lemma bind_await_all {A B : Type} (promises : list (outcome A)) (k : list A -> M B) m :
  bind (await_all promises) k m =
  bind (awaited (Promise_all (first_rejection (env m)) promises)) k m.
Proof. reflexivity. Qed.

Lemma ToNumber_number n st : ToNumber (VNumber n) st = (Returned n, st).
Proof. reflexivity. Qed.

Lemma prepend_prepend {A : Type} tr1 tr2 (r : Reply A) :
  prepend tr1 (prepend tr2 r) = prepend (tr1 ++ tr2) r.
Proof. destruct r. simpl. rewrite app_assoc. reflexivity. Qed.

Lemma bind_assoc {A B C : Type} (c : M A) (f : A -> M B) (g : B -> M C) m :
  bind (bind c f) g m = bind c (fun x => bind (f x) g) m.
Proof.
  unfold bind. destruct (c m) as [[a | r | e] m1 tr1]; try reflexivity.
  destruct (f a m1) as [[b | r | e] m2 tr2]; simpl; try reflexivity.
  destruct (g b m2) as [x m3 tr3]. simpl. rewrite app_assoc. reflexivity.
Qed.

Lemma bind_ret {A B : Type} (a : A) (k : A -> M B) m : bind (ret a) k m = k a m.
Proof. unfold bind, ret. apply prepend_nil. Qed.

Lemma bind_now {B : Type} (k : float -> M B) m :
  bind now k m = k (Date_now (env m)) m.
Proof. unfold bind, now. apply prepend_nil. Qed.

Lemma bind_get_worldSnapshot {B : Type} (k : option string -> M B) m :
  bind get_worldSnapshot k m = k (worldSnapshot m) m.
Proof. unfold bind, get_worldSnapshot. apply prepend_nil. Qed.

Lemma bind_set_worldSnapshot {B : Type} h (k : unit -> M B) m :
  bind (set_worldSnapshot h) k m = k tt {| env := env m; worldSnapshot := Some h |}.
Proof. unfold bind, set_worldSnapshot. apply prepend_nil. Qed.

(** ** Sequences of calls with no [try] and no [return] *)

Lemma quiet_app P (tr1 tr2 : list Call) :
  quiet P tr1 -> quiet P tr2 -> quiet P (tr1 ++ tr2).
Proof. unfold quiet. intros. apply Forall_app. split; assumption. Qed.

Lemma quiet_returned P (tr : list Call) :
  quiet P tr -> Forall (fun c => returned c = true) tr.
Proof. unfold quiet. apply Forall_impl. intros c [_ Rc]. exact Rc. Qed.

Lemma straight_ret {A : Type} (P : Call -> bool) (a : A) : straight P (ret a).
Proof. intros m. simpl. apply ends_normal. constructor. Qed.

Lemma thrown_returned (c : Call) : thrown_by c = None -> returned c = true.
Proof. unfold returned. intros ->. reflexivity. Qed.

Lemma straight_await {A : Type} (P : Call -> bool) (label : outcome A -> Call) f :
  (forall r, P (label r) = true) ->
  (forall r, thrown_by (label r) = thrown r) ->
  straight P (await label f).
Proof.
  intros Pl Tl m. unfold await. destruct (f (env m)) as [[a | e] st]; simpl.
  - apply ends_normal. constructor; [ | constructor ].
    split; [ apply Pl | apply thrown_returned; rewrite Tl; reflexivity ].
  - rewrite <- (app_nil_l [label (Thrown e)]). apply ends_throw.
    + constructor.
    + apply Pl.
    + rewrite Tl. reflexivity.
Qed.

Lemma straight_bind {A B : Type} (P : Call -> bool) (c : M A) (k : A -> M B) :
  straight P c -> (forall a, straight P (k a)) -> straight P (bind c k).
Proof.
  intros Hc Hk m. specialize (Hc m).
  destruct (completed (c m)) as [a | r | e] eqn:E.
  - rewrite (bind_normal c k m E), prepend_completed, prepend_calls.
    inversion Hc as [a' tr Q1 Ea Et | ]; subst.
    specialize (Hk a (machine (c m))).
    inversion Hk as [b tr2 Q2 Eb Et2 | e pre x Q2 Px Tx Eb Et2].
    + apply ends_normal. apply quiet_app; assumption.
    + rewrite app_assoc. apply ends_throw; auto. apply quiet_app; assumption.
  - inversion Hc.
  - rewrite (bind_throw c k m E). simpl.
    inversion Hc as [ | e' pre x Q1 Px Tx Ee Et]; subst.
    apply ends_throw; assumption.
Qed.

End Monad.

Section RunShape.
Context `{Runtime}.
Variable U : Type.
Variable config : Config.
Variable scenario : Scenario U.
Local Abbreviation M := (M U).
Local Abbreviation Call := (Call U).
Local Abbreviation Reply := (Reply U).
Local Abbreviation applySolutions := (@applySolutions _ U).

Lemma straight_applySolutions combo ctx :
  straight before_try (applySolutions config combo ctx).
Proof.
  revert ctx. induction combo as [ | solution rest IH ]; intros ctx; simpl.
  - apply straight_ret.
  - apply straight_bind.
    + apply straight_await; reflexivity.
    + intros r. apply IH.
Qed.

Lemma straight_checkAll cs ctx :
  straight before_try (checkAll config scenario cs ctx).
Proof.
  induction cs as [ | c rest IH ]; simpl.
  - apply straight_ret.
  - apply straight_bind.
    + apply straight_await; reflexivity.
    + intros _. exact IH.
Qed.

(** The [try] statement: the calls of the block, then the world revert of
    the [finally] clause, whatever the block did. *)
Lemma tryStatement_shape startTime ctx l m :
  let r := tryStatement config scenario startTime ctx l m in
  exists tr o rev,
    calls r = tr ++ [world_revertAndSnapshot (contextSnapshot l) rev] /\
    try_trace l o tr /\
    block ctx tr (match o with Returned _ => true | Thrown _ => false end) /\
    match o, rev with
    | Returned x, Returned h' => completed r = Normal (x, h')
    | Returned _, Thrown e' => completed r = Throw e'
    | Thrown e, Returned h' =>
        (exists res, completed r = Return res /\ caught_result l e res) \/
        (exists e2, completed r = Throw e2 /\ converts e (Thrown e2))
    | Thrown e, Thrown e' => completed r = Throw e'
    end.
Proof.
  assert (C : forall e st d st', ToNumber e st = (Returned d, st') ->
                                 converts e (Returned d)).
  { intros e st d st' E. exists st. rewrite E. reflexivity. }
  assert (T : forall e st e2 st', ToNumber e st = (Thrown e2, st') ->
                                  converts e (Thrown e2)).
  { intros e st e2 st' E. exists st. rewrite E. reflexivity. }
  unfold tryStatement, try_catch_finally, generateResult.
  unfold bind, await, invoke, perform, now, ret, return_.
  destruct (transformer scenario ctx (env m)) as [[v | e] st1]; simpl.
  - destruct (property scenario v (world config) ctx st1) as [[[receipt | ] | e] st2];
      simpl.
    + destruct (toNumber (cumulativeGasUsed receipt)) as [g | e]; simpl.
      * destruct (_revertAndSnapshot (world config) (contextSnapshot l) st2)
          as [[h' | e'] st3]; simpl;
          exists [scenario_transformer ctx (Returned v);
                  scenario_property v ctx (Returned (Some receipt));
                  BigNumber_toNumber (cumulativeGasUsed receipt) (Returned g)],
            (Returned ((cumulativeGas l + g)%float, (numSolutionSets l + 1)%float));
          eexists; (split; [ reflexivity | ]); repeat split; constructor.
      * destruct (ToNumber e st2) as [[d | e2] st2'] eqn:Ec; simpl;
          destruct (_revertAndSnapshot (world config) (contextSnapshot l) st2')
            as [[h' | e'] st3]; simpl;
          exists [scenario_transformer ctx (Returned v);
                  scenario_property v ctx (Returned (Some receipt));
                  BigNumber_toNumber (cumulativeGasUsed receipt) (Thrown e)],
            (Thrown e);
          eexists; (split; [ reflexivity | ]);
          (split; [ constructor | ]); (split; [ constructor | ]);
          try reflexivity.
        -- left. eexists. split; [ reflexivity | ].
           split; [ reflexivity | ]. split; [ | repeat split ].
           exists d. split; [ exact (C _ _ _ _ Ec) | reflexivity ].
        -- right. exists e2. split; [ reflexivity | exact (T _ _ _ _ Ec) ].
    + destruct (_revertAndSnapshot (world config) (contextSnapshot l) st2)
        as [[h' | e'] st3]; simpl;
        exists [scenario_transformer ctx (Returned v);
                scenario_property v ctx (Returned None)],
          (Returned (cumulativeGas l, (numSolutionSets l + 1)%float));
        eexists; (split; [ reflexivity | ]); repeat split; constructor.
    + destruct (ToNumber e st2) as [[d | e2] st2'] eqn:Ec; simpl;
        destruct (_revertAndSnapshot (world config) (contextSnapshot l) st2')
          as [[h' | e'] st3]; simpl;
        exists [scenario_transformer ctx (Returned v);
                scenario_property v ctx (Thrown e)],
          (Thrown e);
        eexists; (split; [ reflexivity | ]);
        (split; [ constructor | ]); (split; [ constructor | ]);
        try reflexivity.
      * left. eexists. split; [ reflexivity | ].
        split; [ reflexivity | ]. split; [ | repeat split ].
        exists d. split; [ exact (C _ _ _ _ Ec) | reflexivity ].
      * right. exists e2. split; [ reflexivity | exact (T _ _ _ _ Ec) ].
  - destruct (ToNumber e st1) as [[d | e2] st1'] eqn:Ec; simpl;
      destruct (_revertAndSnapshot (world config) (contextSnapshot l) st1')
        as [[h' | e'] st3]; simpl;
      exists [scenario_transformer ctx (Thrown e)], (Thrown e);
      eexists; (split; [ reflexivity | ]);
      (split; [ constructor | ]); (split; [ constructor | ]);
      try reflexivity.
    + left. eexists. split; [ reflexivity | ].
      split; [ reflexivity | ]. split; [ | repeat split ].
      exists d. split; [ exact (C _ _ _ _ Ec) | reflexivity ].
    + right. exists e2. split; [ reflexivity | exact (T _ _ _ _ Ec) ].
Qed.

Lemma body_shape_prepend l pre c (tr : list Call) :
  quiet before_try pre -> body_shape l c tr -> body_shape l c (pre ++ tr).
Proof.
  intros Q B. destruct B; rewrite app_assoc.
  - apply body_aborted; auto using quiet_app.
  - apply body_passed; auto using quiet_app.
  - eapply body_passed_revert_failed; eauto using quiet_app.
  - eapply body_caught; eauto using quiet_app.
  - eapply body_caught_threw; eauto using quiet_app.
  - eapply body_caught_revert_failed; eauto using quiet_app.
Qed.

Lemma body_shape_after {A : Type} (c : M A) (k : A -> M Locals) l :
  straight before_try c ->
  (forall a m, body_shape l (completed (k a m)) (calls (k a m))) ->
  forall m, body_shape l (completed (bind c k m)) (calls (bind c k m)).
Proof.
  intros Hc Hk m. specialize (Hc m).
  destruct (completed (c m)) as [a | r | e] eqn:E.
  - rewrite (bind_normal c k m E), prepend_completed, prepend_calls.
    inversion Hc; subst. apply body_shape_prepend; auto.
  - inversion Hc.
  - rewrite (bind_throw c k m E). simpl.
    inversion Hc; subst. apply body_aborted; assumption.
Qed.

Lemma comboBody_shape startTime context combo l m :
  body_shape l (completed (comboBody config scenario startTime context combo l m))
               (calls (comboBody config scenario startTime context combo l m)).
Proof.
  unfold comboBody. revert m.
  apply body_shape_after; [ apply straight_await; reflexivity | ].
  intros ctx0. apply body_shape_after; [ apply straight_applySolutions | ].
  intros ctx. apply body_shape_after; [ apply straight_checkAll | ].
  intros _ m.
  destruct (tryStatement_shape startTime ctx l m) as (tr & o & rev & Ec & T & _ & Ed).
  destruct o as [[gas n] | e], rev as [h' | e'].
  - rewrite (bind_normal _ _ m Ed), prepend_completed, prepend_calls. simpl.
    rewrite Ec, app_nil_r, <- (app_nil_l (tr ++ _)).
    apply body_passed; [ constructor | exact T ].
  - rewrite (bind_throw _ _ m Ed). simpl.
    rewrite Ec, <- (app_nil_l (tr ++ _)).
    eapply body_passed_revert_failed; [ constructor | exact T ].
  - destruct Ed as [ (res & Ed & Cr) | (e2 & Ed & Ce) ].
    + rewrite (bind_return _ _ m Ed). simpl.
      rewrite Ec, <- (app_nil_l (tr ++ _)).
      eapply body_caught; [ constructor | exact T | exact Cr ].
    + rewrite (bind_throw _ _ m Ed). simpl.
      rewrite Ec, <- (app_nil_l (tr ++ _)).
      eapply body_caught_threw; [ constructor | exact T | exact Ce ].
  - rewrite (bind_throw _ _ m Ed). simpl.
    rewrite Ec, <- (app_nil_l (tr ++ _)).
    eapply body_caught_revert_failed; [ constructor | exact T ].
Qed.

Lemma comboLoop_shape startTime context combos l m :
  loop_shape l (completed (comboLoop config scenario startTime context combos l m))
               (calls (comboLoop config scenario startTime context combos l m)).
Proof.
  revert l m. induction combos as [ | combo rest IH ]; intros l m; simpl.
  - apply loop_end.
  - pose proof (comboBody_shape startTime context combo l m) as B.
    destruct (completed (comboBody config scenario startTime context combo l m))
      as [l' | r | e] eqn:E.
    + rewrite (bind_normal _ _ m E), prepend_completed, prepend_calls.
      eapply loop_next; [ exact B | apply IH ].
    + rewrite (bind_return _ _ m E). simpl.
      apply loop_exit; [ exact B | discriminate ].
    + rewrite (bind_throw _ _ m E). simpl.
      apply loop_exit; [ exact B | discriminate ].
Qed.


Lemma is_solve_in_setup (c : Call) : is_solve c = true -> in_setup c = true.
Proof. destruct c; simpl; congruence. Qed.

Lemma is_solve_not_in_try (c : Call) : is_solve c = true -> in_try c = false.
Proof. destruct c; simpl; congruence. Qed.

Lemma last_snapshot_solves h (tr : list Call) :
  Forall (fun x => is_solve x = true) tr -> last_snapshot h tr = h.
Proof.
  induction 1 as [ | x tr Ix _ IH ]; [ reflexivity | ].
  destruct x; try discriminate Ix; exact IH.
Qed.

(** The solves: one call for each constraint, in the order of the
    constraints, whatever the outcomes; the promises are the outcomes,
    normalized. *)
Lemma startSolves_calls context cs m :
  exists outcomes,
    List.length outcomes = List.length cs /\
    calls (startSolves config scenario context cs m) =
      map (fun co => constraint_solve (fst co) context (snd co)) (combine cs outcomes) /\
    completed (startSolves config scenario context cs m) =
      Normal (map (fun o => then_ o mapSolution) outcomes).
Proof.
  revert m. induction cs as [ | c rest IH ]; intros m; simpl.
  - exists []. repeat split.
  - rewrite bind_settle.
    destruct (solve c (requirements scenario) context (world config) (env m))
      as [p st]. cbn [fst snd].
    destruct (IH {| env := st; worldSnapshot := worldSnapshot m |})
      as (outs & L & Ec & Ed).
    rewrite (bind_normal _ _ _ Ed), prepend_prepend, prepend_completed, prepend_calls.
    unfold ret. cbn [completed calls]. rewrite app_nil_r. simpl app.
    exists (p :: outs). simpl. rewrite L, Ec. repeat split.
Qed.

Lemma rejection_then {A B : Type} (f : A -> B) (outcomes : list (outcome A)) :
  flat_map rejection (map (fun o => then_ o f) outcomes) = flat_map rejection outcomes.
Proof.
  induction outcomes as [ | [ a | e ] outcomes IH ]; simpl; [ reflexivity | exact IH | ].
  rewrite IH. reflexivity.
Qed.

(** The solve calls with the outcomes [outcomes], none of which is a
    rejection. *)
Lemma solves_all_returned context (cs : list (Constraint U)) outcomes :
  List.length outcomes = List.length cs ->
  flat_map rejection outcomes = [] ->
  let tr := map (fun co => constraint_solve (fst co) context (snd co))
                (combine cs outcomes) in
  quiet in_setup tr /\
  tr = solves context cs (solve_results tr) /\
  flat_map fulfilment (map (fun o => then_ o mapSolution) outcomes) =
    map mapSolution (solve_results tr) /\
  List.length (solve_results tr) = List.length cs.
Proof.
  cbv zeta. revert cs.
  induction outcomes as [ | [ s | e ] outcomes IH ]; intros cs L R;
    destruct cs as [ | c cs ]; try discriminate L; try discriminate R.
  - repeat split. constructor.
  - simpl in L, R. injection L as L.
    destruct (IH cs L R) as (Q & Es & Ef & El). simpl.
    split; [ constructor; [ split; reflexivity | exact Q ] | ].
    unfold solves in *. simpl. rewrite <- Es, Ef, El. repeat split.
Qed.

(** An error among the rejections is the error of a solve call. *)
Lemma solves_rejection context (cs : list (Constraint U)) outcomes e :
  List.length outcomes = List.length cs ->
  In e (flat_map rejection outcomes) ->
  exists x,
    In x (map (fun co => constraint_solve (fst co) context (snd co))
              (combine cs outcomes)) /\
    thrown_by x = Some e.
Proof.
  revert cs. induction outcomes as [ | o outcomes IH ]; intros cs L I;
    [ destruct I | ].
  destruct cs as [ | c cs ]; [ discriminate L | ]. simpl in L. injection L as L.
  simpl in I. apply in_app_or in I. destruct I as [ I | I ].
  - destruct o as [ s | e0 ]; [ destruct I | ]. destruct I as [ <- | [] ].
    exists (constraint_solve c context (Thrown e0)). split; [ left | ]; reflexivity.
  - destruct (IH cs L I) as (x & Ix & Tx). exists x. split; [ right; exact Ix | exact Tx ].
Qed.

(** Solve calls of which one threw: the first that threw, those before it,
    which returned, and those after it. *)
Lemma first_thrown_solve (tr : list Call) x e' :
  Forall (fun c => is_solve c = true) tr ->
  In x tr -> thrown_by x = Some e' ->
  exists e pre c post,
    tr = pre ++ c :: post /\ quiet in_setup pre /\ is_solve c = true /\
    thrown_by c = Some e /\ Forall (fun c => is_solve c = true) post /\
    In x (c :: post).
Proof.
  intros F. revert x e'. induction F as [ | c tr Ic F IH ]; intros x e' Ix Tx;
    [ destruct Ix | ].
  destruct (thrown_by c) as [ e | ] eqn:Tc.
  - exists e, [], c, tr. repeat split; [ constructor | assumption.. ].
  - destruct Ix as [ -> | Ix ]; [ congruence | ].
    destruct (IH x e' Ix Tx) as (e & pre & c' & post & -> & Q & Ic' & Tc' & Fp & I').
    exists e, (c :: pre), c', post. repeat split; try assumption.
    constructor; [ | exact Q ].
    split; [ apply is_solve_in_setup; exact Ic | apply thrown_returned; exact Tc ].
Qed.

Lemma solve_calls_are_solves context (cs : list (Constraint U)) outcomes :
  Forall (fun x => is_solve x = true)
    (map (fun co => constraint_solve (fst co) context (snd co)) (combine cs outcomes)).
Proof.
  apply Forall_forall. intros x Ix. apply in_map_iff in Ix.
  destruct Ix as (co & <- & _). reflexivity.
Qed.

(** The solves: every one is started; [Promise.all] is fulfilled with the
    normalized results when all of them returned, and rejected with the
    error of one of those that threw otherwise. *)
Lemma startSolves_spec first context cs m :
  exists promises,
    completed (startSolves config scenario context cs m) = Normal promises /\
    Forall (fun x => is_solve x = true)
           (calls (startSolves config scenario context cs m)) /\
    match Promise_all first promises with
    | Returned choices =>
        quiet in_setup (calls (startSolves config scenario context cs m)) /\
        choices =
          map mapSolution
              (solve_results (calls (startSolves config scenario context cs m))) /\
        List.length choices = List.length cs /\
        calls (startSolves config scenario context cs m) =
          solves context cs
            (solve_results (calls (startSolves config scenario context cs m)))
    | Thrown e' =>
        exists e pre c post,
          calls (startSolves config scenario context cs m) = pre ++ c :: post /\
          quiet in_setup pre /\ is_solve c = true /\ thrown_by c = Some e /\
          Forall (fun x => is_solve x = true) post /\
          exists x, In x (c :: post) /\ thrown_by x = Some e'
    end.
Proof.
  destruct (startSolves_calls context cs m) as (outs & L & Ec & Ed).
  exists (map (fun o => then_ o mapSolution) outs).
  split; [ exact Ed | ]. rewrite Ec.
  split; [ apply solve_calls_are_solves | ].
  unfold Promise_all. rewrite rejection_then.
  destruct (flat_map rejection outs) as [ | e0 rest ] eqn:R.
  - destruct (@solves_all_returned context cs outs L R) as (Q & Es & Ef & El).
    split; [ exact Q | ]. split; [ exact Ef | ].
    split; [ rewrite Ef, length_map; exact El | exact Es ].
  - assert (I : In (nth first (e0 :: rest) e0) (flat_map rejection outs)).
    { rewrite R. destruct (nth_in_or_default first (e0 :: rest) e0) as [ I | -> ];
        [ exact I | left; reflexivity ]. }
    destruct (@solves_rejection context cs outs _ L I) as (x & Ix & Tx).
    destruct (@first_thrown_solve _ _ _ (solve_calls_are_solves context cs outs) Ix Tx)
      as (e & pre & c & post & Et & Q & Ic & Tc & Fp & I').
    exists e, pre, c, post. repeat split; try assumption.
    exists x. split; assumption.
Qed.

Lemma last_snapshot_app h (tr1 tr2 : list Call) :
  last_snapshot h (tr1 ++ tr2) = last_snapshot (last_snapshot h tr1) tr2.
Proof. apply fold_left_app. Qed.

Lemma solve_results_app (tr1 tr2 : list Call) :
  solve_results (tr1 ++ tr2) = solve_results tr1 ++ solve_results tr2.
Proof. apply flat_map_app. Qed.

Lemma run_after_setup m0 h0 h pre startTime context m :
  pre = [ reset_call (worldSnapshot m0) (Returned h0);
          scenario_initializer (Returned context);
          world_snapshot (Returned h) ] ->
  run_outcome config scenario m0
    (prepend pre
       (bind (startSolves config scenario context (constraints_of scenario))
          (fun promises =>
             bind (await_all promises)
               (fun solutionChoices =>
                  bind (comboLoop config scenario startTime context
                          (combos (baseSolutions ++ solutionChoices))
                          {| contextSnapshot := h; cumulativeGas := 0;
                             numSolutionSets := 0 |})
                    (fun l =>
                       bind (generateResult (base config) scenario startTime
                               (cumulativeGas l) (VNumber (numSolutionSets l))
                               VUndefined)
                         (fun r => return_ r))))
          m)).
Proof.
  intros Ep.
  assert (Q : quiet in_setup pre).
  { subst pre. unfold reset_call. destruct (is_set (worldSnapshot m0));
      repeat constructor. }
  assert (L : last_snapshot EmptyString pre = h).
  { subst pre. unfold reset_call. destruct (is_set (worldSnapshot m0)); reflexivity. }
  assert (S : solve_results pre = []).
  { subst pre. unfold reset_call. destruct (is_set (worldSnapshot m0)); reflexivity. }
  set (m' := machine (startSolves config scenario context (constraints_of scenario) m)).
  destruct (startSolves_spec (first_rejection (env m')) context
              (constraints_of scenario) m) as (ps & E & F & P).
  rewrite (bind_normal _ _ m E), prepend_prepend, bind_await_all. fold m'.
  set (solved := calls (startSolves config scenario context (constraints_of scenario) m)) in *.
  destruct (Promise_all (first_rejection (env m')) ps) as [ choices | e' ].
  - right. rewrite bind_awaited_returned. destruct P as (Q1 & Ec & El & Es).
    exists (pre ++ solved), startTime, context, m'.
    split; [ apply quiet_app; assumption | ].
    rewrite last_snapshot_app, L, (last_snapshot_solves h F),
      solve_results_app, S, app_nil_l, <- Ec.
    split; [ rewrite <- El, Ec; symmetry; apply length_map | ].
    cbv zeta. rewrite prepend_calls, prepend_completed.
    set (lp := comboLoop config scenario startTime context
                 (combos (baseSolutions ++ choices)) _ _).
    split; [ | split ].
    + destruct (completed lp) as [l | res | e] eqn:El'.
      * rewrite (bind_normal _ _ _ El'), prepend_calls. unfold generateResult.
        rewrite bind_assoc, bind_perform, ToNumber_number, bind_assoc, bind_now, bind_ret.
        simpl. rewrite app_nil_r. reflexivity.
      * rewrite (bind_return _ _ _ El'). reflexivity.
      * rewrite (bind_throw _ _ _ El'). reflexivity.
    + destruct (completed lp) as [l | res | e] eqn:El'.
      * rewrite (bind_normal _ _ _ El'), prepend_completed. unfold generateResult.
        rewrite bind_assoc, bind_perform, ToNumber_number, bind_assoc, bind_now, bind_ret.
        simpl. eexists. split; [ reflexivity | ]. repeat split.
      * rewrite (bind_return _ _ _ El'). reflexivity.
      * rewrite (bind_throw _ _ _ El'). reflexivity.
    + exists h0, h. rewrite Ep. simpl. rewrite <- Es. reflexivity.
  - left. rewrite bind_awaited_thrown.
    destruct P as (e & p1 & c & post & Ec & Q1 & Ic & Tc & Fp & x & Ix & Tx).
    exists e, (pre ++ p1), c, post. cbn [prepend completed calls].
    rewrite app_nil_r, Ec, app_assoc.
    split; [ reflexivity | ].
    split; [ apply quiet_app; assumption | ].
    split; [ apply is_solve_in_setup; exact Ic | ].
    split; [ exact Tc | right ].
    split; [ exact Ic | ]. split; [ exact Fp | ].
    exists x, e'. repeat split; assumption.
Qed.

Lemma setup_failed_at (r : Reply Result.t) e pre c :
  completed r = Throw e -> calls r = pre ++ [c] ->
  quiet in_setup pre -> in_setup c = true -> thrown_by c = Some e ->
  setup_failed r.
Proof.
  intros Ec Et Q Ic Tc. exists e, pre, c, [].
  repeat split; try assumption. left. split; [ reflexivity | exact Ec ].
Qed.

Lemma setup_failed_throws (r : Reply Result.t) :
  setup_failed r -> exists e, completed r = Throw e.
Proof.
  intros (e & pre & c & post & _ & _ & _ & _ & [ [_ Ec] | (_ & _ & x & e' & _ & _ & Ec) ]);
    eauto.
Qed.

Lemma run_cases m : run_outcome config scenario m (run config scenario m).
Proof.
  unfold run. rewrite bind_now, bind_get_worldSnapshot.
  destruct (is_set (worldSnapshot m)) eqn:Es.
  - rewrite bind_assoc, bind_await.
    destruct (_revertAndSnapshot (world config) (handle_of (worldSnapshot m)) (env m))
      as [[s | e] st].
    + rewrite bind_set_worldSnapshot, bind_await. cbn [env worldSnapshot].
      destruct (initializer scenario (world config) st) as [[context | e] st1].
      * rewrite bind_await. cbn [env worldSnapshot].
        destruct (_snapshot (world config) st1) as [[cs | e] st2].
        -- rewrite !prepend_prepend. apply (run_after_setup m s).
           unfold reset_call. rewrite Es. reflexivity.
        -- left. rewrite prepend_prepend.
           apply (@setup_failed_at _ e
                    [world_revertAndSnapshot (handle_of (worldSnapshot m)) (Returned s);
                     scenario_initializer (Returned context)]
                    (world_snapshot (Thrown e)));
             repeat constructor.
      * left.
        apply (@setup_failed_at _ e
                 [world_revertAndSnapshot (handle_of (worldSnapshot m)) (Returned s)]
                 (scenario_initializer (Thrown e)));
          repeat constructor.
    + left.
      apply (@setup_failed_at _ e []
               (world_revertAndSnapshot (handle_of (worldSnapshot m)) (Thrown e)));
        repeat constructor.
  - rewrite bind_assoc, bind_await.
    destruct (_snapshot (world config) (env m)) as [[s | e] st].
    + rewrite bind_set_worldSnapshot, bind_await. cbn [env worldSnapshot].
      destruct (initializer scenario (world config) st) as [[context | e] st1].
      * rewrite bind_await. cbn [env worldSnapshot].
        destruct (_snapshot (world config) st1) as [[cs | e] st2].
        -- rewrite !prepend_prepend. apply (run_after_setup m s).
           unfold reset_call. rewrite Es. reflexivity.
        -- left. rewrite prepend_prepend.
           apply (@setup_failed_at _ e
                    [world_snapshot (Returned s); scenario_initializer (Returned context)]
                    (world_snapshot (Thrown e)));
             repeat constructor.
      * left.
        apply (@setup_failed_at _ e [world_snapshot (Returned s)]
                 (scenario_initializer (Thrown e)));
          repeat constructor.
    + left.
      apply (@setup_failed_at _ e [] (world_snapshot (Thrown e)));
        repeat constructor.
Qed.

(** ** The loop that runs to its end *)

Lemma satisfied_app (tr1 tr2 : list Call) :
  satisfied (tr1 ++ tr2) = satisfied tr1 + satisfied tr2.
Proof. unfold satisfied. rewrite filter_app, length_app. reflexivity. Qed.

Lemma reported_gas_app acc (tr1 tr2 : list Call) :
  reported_gas acc (tr1 ++ tr2) = reported_gas (reported_gas acc tr1) tr2.
Proof. apply fold_left_app. Qed.

Lemma quiet_before_try_counts (pre : list Call) acc :
  quiet before_try pre -> satisfied pre = 0 /\ reported_gas acc pre = acc.
Proof.
  induction 1 as [ | c pre [Pc Rc] _ [IH1 IH2] ]; [ split; reflexivity | ].
  destruct c; try discriminate Pc; split; assumption.
Qed.

Lemma try_trace_passed l x (tr : list Call) :
  try_trace l (Returned x) tr ->
  satisfied tr = 1 /\
  x = (reported_gas (cumulativeGas l) tr, (numSolutionSets l + 1)%float) /\
  Forall (fun c => returned c = true) tr.
Proof.
  intros T. inversion T; subst; repeat split; repeat constructor.
Qed.

Lemma body_passed_counts l l' (tr : list Call) :
  body_shape l (Normal l') tr ->
  satisfied tr = 1 /\
  numSolutionSets l' = (numSolutionSets l + 1)%float /\
  cumulativeGas l' = reported_gas (cumulativeGas l) tr /\
  Forall (fun c => returned c = true) tr.
Proof.
  intros B. inversion B as [ | pre t gas n h' Q T | | | | ]; subst.
  destruct (quiet_before_try_counts (cumulativeGas l) Q) as [S0 G0].
  destruct (try_trace_passed T) as (S1 & E & R1). inversion E; subst.
  rewrite !satisfied_app, !reported_gas_app, S0, S1, G0. simpl.
  repeat split.
  apply Forall_app. split; [ exact (quiet_returned Q) | ].
  apply Forall_app. split; [ exact R1 | repeat constructor ].
Qed.

Lemma comboLoop_normal startTime context combos l m l' :
  completed (comboLoop config scenario startTime context combos l m) = Normal l' ->
  let tr := calls (comboLoop config scenario startTime context combos l m) in
  satisfied tr = List.length combos /\
  numSolutionSets l' = incremented (List.length combos) (numSolutionSets l) /\
  cumulativeGas l' = reported_gas (cumulativeGas l) tr /\
  Forall (fun c => returned c = true) tr.
Proof.
  revert l m. induction combos as [ | combo rest IH ]; intros l m; simpl.
  - intros E. inversion E. repeat split. constructor.
  - pose proof (comboBody_shape startTime context combo l m) as B.
    destruct (completed (comboBody config scenario startTime context combo l m))
      as [l1 | r | e] eqn:E.
    + rewrite (bind_normal _ _ m E), prepend_completed, prepend_calls.
      intros E'. destruct (IH _ _ E') as (S2 & N2 & G2 & R2).
      destruct (body_passed_counts B) as (S1 & N1 & G1 & R1).
      rewrite satisfied_app, reported_gas_app, S1, S2, N2, N1, G2, G1.
      repeat split. apply Forall_app. split; assumption.
    + rewrite (bind_return _ _ m E). discriminate.
    + rewrite (bind_throw _ _ m E). discriminate.
Qed.


(** ** The first call that throws *)

Lemma try_trace_in_try l o (tr : list Call) :
  try_trace l o tr -> Forall (fun c => in_try c = true) tr.
Proof. intros T. inversion T; subst; repeat constructor. Qed.

Lemma try_trace_failed l e (tr : list Call) :
  try_trace l (Thrown e) tr ->
  exists pre c,
    tr = pre ++ [c] /\ Forall (fun c => returned c = true) pre /\
    thrown_by c = Some e /\ in_try c = true.
Proof.
  intros T. inversion T; subst.
  - exists [], (scenario_transformer ctx (Thrown e)). repeat split. constructor.
  - exists [scenario_transformer ctx (Returned v)], (scenario_property v ctx (Thrown e)).
    repeat split. repeat constructor.
  - exists [scenario_transformer ctx (Returned v);
            scenario_property v ctx (Returned (Some receipt))],
      (BigNumber_toNumber (cumulativeGasUsed receipt) (Thrown e)).
    repeat split. repeat constructor.
Qed.

Lemma before_try_not_in_try (c : Call) : before_try c = true -> in_try c = false.
Proof. destruct c; simpl; congruence. Qed.

Lemma in_setup_not_in_try (c : Call) : in_setup c = true -> in_try c = false.
Proof. destruct c; simpl; congruence. Qed.

(** An iteration that does not complete normally ends with a failure. *)
Lemma body_failure l c (tr : list Call) :
  body_shape l c tr -> (forall l', c <> Normal l') ->
  exists pre tail,
    tr = pre ++ tail /\ Forall (fun c => returned c = true) pre /\
    failure_tail c tail.
Proof.
  intros B NN. destruct B as [ e pre c Q Pc Tc | pre tr gas n h' Q T
    | pre tr x e' Q T | pre tr e r h' Q T Cr | pre tr e e2 h' Q T Ce
    | pre tr e e' Q T ].
  - exists pre, [c]. repeat split; [ exact (quiet_returned Q) | ].
    apply tail_outside; auto using before_try_not_in_try.
  - exfalso. eapply NN. reflexivity.
  - exists (pre ++ tr), [world_revertAndSnapshot (contextSnapshot l) (Thrown e')].
    rewrite app_assoc. repeat split.
    + apply Forall_app. split; [ exact (quiet_returned Q) | ].
      destruct x as [gas n]. apply (try_trace_passed T).
    + apply tail_outside; reflexivity.
  - destruct (try_trace_failed T) as (t1 & c & -> & R1 & Tc & Ic).
    exists (pre ++ t1), [c; world_revertAndSnapshot (contextSnapshot l) (Returned h')].
    rewrite <- !app_assoc. repeat split.
    + apply Forall_app. split; [ exact (quiet_returned Q) | exact R1 ].
    + destruct Cr as (C1 & (d & Cd & _) & C2 & C3 & C4).
      eapply tail_caught; try eassumption; [ repeat split; assumption | ].
      exists d. exact Cd.
  - destruct (try_trace_failed T) as (t1 & c & -> & R1 & Tc & Ic).
    exists (pre ++ t1), [c; world_revertAndSnapshot (contextSnapshot l) (Returned h')].
    rewrite <- !app_assoc. repeat split.
    + apply Forall_app. split; [ exact (quiet_returned Q) | exact R1 ].
    + eapply tail_caught_threw; eassumption.
  - destruct (try_trace_failed T) as (t1 & c & -> & R1 & Tc & Ic).
    exists (pre ++ t1), [c; world_revertAndSnapshot (contextSnapshot l) (Thrown e')].
    rewrite <- !app_assoc. repeat split.
    + apply Forall_app. split; [ exact (quiet_returned Q) | exact R1 ].
    + eapply tail_caught_revert_failed; eassumption.
Qed.

Lemma loop_failure l c (tr : list Call) :
  loop_shape l c tr ->
  (exists l', c = Normal l' /\ Forall (fun c => returned c = true) tr) \/
  (exists pre tail,
     tr = pre ++ tail /\ Forall (fun c => returned c = true) pre /\
     failure_tail c tail).
Proof.
  induction 1 as [ l | l l' tr c rest B L IH | l c tr B NN ].
  - left. exists l. split; [ reflexivity | constructor ].
  - destruct (body_passed_counts B) as (_ & _ & _ & R1).
    destruct IH as [ (l2 & -> & R2) | (pre & tail & -> & R2 & F) ].
    + left. exists l2. split; [ reflexivity | ].
      apply Forall_app. split; assumption.
    + right. exists (tr ++ pre), tail. rewrite app_assoc.
      repeat split; [ | exact F ]. apply Forall_app. split; assumption.
  - right. apply (body_failure B NN).
Qed.


Lemma quiet_in_setup_counts (pre : list Call) acc :
  quiet in_setup pre -> satisfied pre = 0 /\ reported_gas acc pre = acc.
Proof.
  induction 1 as [ | c pre [Pc Rc] _ [IH1 IH2] ]; [ split; reflexivity | ].
  destruct c; try discriminate Pc; split; assumption.
Qed.

Lemma body_no_solve l c (tr : list Call) :
  body_shape l c tr -> solve_results tr = [].
Proof.
  assert (P : forall pre : list Call, quiet before_try pre -> solve_results pre = []).
  { induction 1 as [ | x pre [Px _] _ IH ]; [ reflexivity | ].
    destruct x; try discriminate Px; exact IH. }
  assert (T : forall o (t : list Call), try_trace l o t -> solve_results t = []).
  { intros o t Ht. inversion Ht; reflexivity. }
  intros B. destruct B; rewrite ?solve_results_app;
    repeat match goal with
           | Q : quiet before_try _ |- _ => rewrite (P _ Q); clear Q
           | Ht : try_trace _ _ _ |- _ => rewrite (T _ _ Ht); clear Ht
           end; try reflexivity.
  destruct c; try discriminate; reflexivity.
Qed.

Lemma loop_no_solve l c (tr : list Call) :
  loop_shape l c tr -> solve_results tr = [].
Proof.
  induction 1 as [ l | l l' tr c rest B L IH | l c tr B NN ].
  - reflexivity.
  - rewrite solve_results_app, (body_no_solve B), IH. reflexivity.
  - apply (body_no_solve B).
Qed.

(** [run] has two ways to end: every call returned and it returns the
    Result built after the loop, or a call threw and the calls end as
    [failure_tail] says. *)
Lemma run_summary m :
  let r := run config scenario m in
  (Forall (fun c => returned c = true) (calls r) /\
   exists res, completed r = Return res /\ success (calls r) res)
  \/
  (exists pre tail,
     calls r = pre ++ tail /\ Forall (fun c => returned c = true) pre /\
     failure_tail (completed r) tail).
Proof.
  cbv zeta.
  destruct (run_cases m) as [ (e & pre & c & post & Et & Q & Pc & Tc & P)
                            | (setup & startTime & context & m' & Q & _ & Et & Ec & _) ].
  - right. exists pre, (c :: post).
    split; [ exact Et | split; [ exact (quiet_returned Q) | ] ].
    destruct P as [ [-> Ec] | (Ic & Fp & x & e' & Ix & Tx & Ec) ]; rewrite Ec.
    + apply tail_outside; auto using in_setup_not_in_try.
    + eapply tail_solve; eassumption.
  - cbv zeta in Et, Ec.
    set (l0 := {| contextSnapshot := last_snapshot EmptyString setup;
                  cumulativeGas := 0; numSolutionSets := 0 |}) in *.
    set (cs := combos (baseSolutions ++ map mapSolution (solve_results setup))) in *.
    pose proof (comboLoop_shape startTime context cs l0 m') as L.
    destruct (loop_failure L) as [ (l' & El & R) | (pre & tail & Ep & R & F) ].
    + left. rewrite El in Ec. destruct Ec as (res & Ec & Fr).
      split.
      { rewrite Et. apply Forall_app. split; [ exact (quiet_returned Q) | exact R ]. }
      exists res. split; [ exact Ec | ].
      destruct (comboLoop_normal _ _ _ _ _ El) as (S & N & G & _).
      destruct (quiet_in_setup_counts 0 Q) as [S0 G0].
      destruct Fr as (F1 & F2 & F3 & F4 & F5).
      unfold success.
      rewrite Et, satisfied_app, reported_gas_app, solve_results_app,
        (loop_no_solve L), app_nil_r, S0, G0, S. simpl plus.
      fold cs. rewrite F1, F2, N, G. repeat split; assumption.
    + right. exists (setup ++ pre), tail. rewrite Et, Ep, app_assoc.
      split; [ reflexivity | ].
      split; [ apply Forall_app; split; [ exact (quiet_returned Q) | exact R ] | ].
      destruct F as [ e c Tc Ic | e c post x e' Tc Ic Fp Ix Tx
                    | e c r h h' Tc Ic Cr Cd | e c e2 h h' Tc Ic Ce
                    | e c h e' Tc Ic ]; rewrite Ec.
      * apply tail_outside; assumption.
      * eapply tail_solve; eassumption.
      * eapply tail_caught; eassumption.
      * eapply tail_caught_threw; eassumption.
      * eapply tail_caught_revert_failed; eassumption.
Qed.


(** ** The world revert after a [try] block *)

Lemma reverts_split h (tr : list Call) :
  reverts h tr ->
  forall pre c post,
    tr = pre ++ c :: post -> in_try c = true ->
    exists mid rev rest,
      post = mid ++ world_revertAndSnapshot (last_snapshot h pre) rev :: rest /\
      Forall (fun x => in_try x = true) mid.
Proof.
  intros R pre. revert h tr R.
  induction pre as [ | x pre IH ]; intros h tr R c post E I; subst tr.
  - destruct R as [R _]. exact (R I).
  - destruct R as [_ R]. exact (IH _ _ R c post eq_refl I).
Qed.

Lemma reverts_app h (p tr : list Call) :
  Forall (fun x => in_try x = false) p ->
  reverts (last_snapshot h p) tr -> reverts h (p ++ tr).
Proof.
  intros F. revert h. induction F as [ | x p Ix F IH ]; intros h R.
  - exact R.
  - split; [ congruence | ]. apply IH. exact R.
Qed.

Lemma reverts_try h (t : list Call) rev (rest : list Call) :
  Forall (fun x => in_try x = true) t ->
  reverts (next_snapshot h (world_revertAndSnapshot h rev : Call)) rest ->
  reverts h (t ++ world_revertAndSnapshot h rev :: rest).
Proof.
  intros F R. induction F as [ | x t Ix F IH ].
  - split; [ discriminate | exact R ].
  - split.
    + intros _. exists t, rev, rest. split; [ reflexivity | exact F ].
    + destruct x; try discriminate Ix; exact IH.
Qed.

Lemma quiet_before_try_snapshot h (pre : list Call) :
  quiet before_try pre ->
  Forall (fun x => in_try x = false) pre /\ last_snapshot h pre = h.
Proof.
  induction 1 as [ | x pre [Px _] _ [IH1 IH2] ]; [ split; [ constructor | reflexivity ] | ].
  split.
  - constructor; [ apply before_try_not_in_try; exact Px | exact IH1 ].
  - destruct x; try discriminate Px; exact IH2.
Qed.

Lemma body_reverts l c (tr rest : list Call) :
  body_shape l c tr ->
  (forall l', c = Normal l' -> reverts (contextSnapshot l') rest) ->
  ((forall l', c <> Normal l') -> rest = []) ->
  reverts (contextSnapshot l) (tr ++ rest).
Proof.
  intros B RN RF.
  destruct B as [ e pre c Q Pc Tc | pre tr gas n h' Q T
    | pre tr x e' Q T | pre tr e r h' Q T Cr | pre tr e e2 h' Q T Ce
    | pre tr e e' Q T ];
    destruct (quiet_before_try_snapshot (contextSnapshot l) Q) as [F L];
    rewrite <- ?app_assoc; apply reverts_app; try exact F; rewrite L.
  - rewrite RF by discriminate. split; [ | exact I ].
    rewrite (before_try_not_in_try _ Pc). discriminate.
  - simpl. apply reverts_try; [ exact (try_trace_in_try T) | ].
    apply (RN _ eq_refl).
  - rewrite RF by discriminate. simpl.
    apply reverts_try; [ exact (try_trace_in_try T) | exact I ].
  - rewrite RF by discriminate. simpl.
    apply reverts_try; [ exact (try_trace_in_try T) | exact I ].
  - rewrite RF by discriminate. simpl.
    apply reverts_try; [ exact (try_trace_in_try T) | exact I ].
  - rewrite RF by discriminate. simpl.
    apply reverts_try; [ exact (try_trace_in_try T) | exact I ].
Qed.

Lemma loop_reverts l c (tr : list Call) :
  loop_shape l c tr -> reverts (contextSnapshot l) tr.
Proof.
  induction 1 as [ l | l l' tr c rest B L IH | l c tr B NN ].
  - exact I.
  - apply (body_reverts B).
    + intros l2 E. inversion E; subst. exact IH.
    + intros NN. exfalso. exact (NN l' eq_refl).
  - rewrite <- (app_nil_r tr). apply (body_reverts B).
    + intros l2 E. exfalso. exact (NN l2 E).
    + reflexivity.
Qed.

Lemma quiet_in_setup_not_in_try (pre : list Call) :
  quiet in_setup pre -> Forall (fun x => in_try x = false) pre.
Proof.
  unfold quiet. apply Forall_impl. intros c [Pc _].
  apply in_setup_not_in_try. exact Pc.
Qed.

Lemma reverts_no_try h (tr : list Call) :
  Forall (fun x => in_try x = false) tr -> reverts h tr.
Proof.
  intros F. rewrite <- (app_nil_r tr). apply reverts_app; [ exact F | exact I ].
Qed.

Lemma run_reverts m :
  reverts EmptyString (calls (run config scenario m)).
Proof.
  destruct (run_cases m) as [ (e & pre & c & post & Et & Q & Pc & Tc & P)
                            | (setup & startTime & context & m' & Q & _ & Et & Ec & _) ].
  - rewrite Et. apply reverts_no_try. apply Forall_app.
    split; [ exact (quiet_in_setup_not_in_try Q) | ].
    constructor; [ exact (in_setup_not_in_try _ Pc) | ].
    destruct P as [ [-> _] | (_ & Fp & _) ]; [ constructor | ].
    revert Fp. apply Forall_impl. exact is_solve_not_in_try.
  - cbv zeta in Et. rewrite Et.
    apply reverts_app; [ exact (quiet_in_setup_not_in_try Q) | ].
    exact (loop_reverts (comboLoop_shape startTime context _
             {| contextSnapshot := last_snapshot EmptyString setup;
                cumulativeGas := 0; numSolutionSets := 0 |} m')).
Qed.


(** ** What follows a call that threw *)

Lemma first_failure (pre tail pre' : list Call) c' post :
  Forall (fun c => returned c = true) pre -> returned c' = false ->
  pre ++ tail = pre' ++ c' :: post ->
  exists t, tail = t ++ c' :: post /\ pre' = pre ++ t.
Proof.
  intros F. revert pre'. induction F as [ | x pre Rx F IH ]; intros pre' Rc E.
  - exists pre'. split; [ exact E | reflexivity ].
  - destruct pre' as [ | y pre' ]; simpl in E; inversion E; subst.
    + congruence.
    + destruct (IH pre' Rc H2) as (t & Et & Ep).
      exists t. split; [ exact Et | ]. simpl. f_equal. exact Ep.
Qed.

Lemma thrown_not_returned (c : Call) e : thrown_by c = Some e -> returned c = false.
Proof. unfold returned. intros ->. reflexivity. Qed.

(** A call of [run] that threw is followed by nothing when it was made
    outside the [try] block, or by solves when it is a solve, and [run]
    throws; it is followed by the world revert alone when it was made
    inside. *)
Lemma run_failure_cases m pre c post :
  let r := run config scenario m in
  calls r = pre ++ c :: post -> returned c = false ->
  (in_try c = false /\
   (post = [] \/ (is_solve c = true /\ Forall (fun x => is_solve x = true) post)) /\
   exists e,
     completed r = Throw e /\
     ((post = [] /\ thrown_by c = Some e) \/
      (is_solve c = true /\
       exists x, In x (calls r) /\ is_solve x = true /\ thrown_by x = Some e)))
  \/
  (in_try c = true /\
   exists h rev,
     post = [world_revertAndSnapshot h rev] /\
     match rev with
     | Returned _ =>
         exists e,
           thrown_by c = Some e /\
           ((exists res, completed r = Return res /\ caught e res /\
                         exists d, converts e (Returned d)) \/
            (exists e2, completed r = Throw e2 /\ converts e (Thrown e2)))
     | Thrown e' => completed r = Throw e'
     end).
Proof.
  cbv zeta. intros E Rc.
  destruct (run_summary m) as [ [R _] | (p & tail & Et & R & F) ].
  - rewrite E in R. apply Forall_app in R. destruct R as [_ R].
    inversion R; subst. congruence.
  - assert (Sub : forall x, In x tail -> In x (calls (run config scenario m))).
    { intros x Ix. rewrite Et. apply in_or_app. right. exact Ix. }
    rewrite E in Et. symmetry in Et.
    destruct (@first_failure p tail pre c post R Rc Et) as (t & Etail & _).
    destruct F as [ e x Tx Ix | e x post0 y e' Tx Ix Fp Iy Ty
                  | e x r h h' Tx Ix Cr Cd | e x e2 h h' Tx Ix Ce
                  | e x h e' Tx Ix ].
    + destruct t as [ | y [ | z t ] ]; inversion Etail; subst.
      left. split; [ exact Ix | ]. split; [ left; reflexivity | ].
      exists e. split; [ reflexivity | left; split; [ reflexivity | exact Tx ] ].
    + assert (Sy : is_solve y = true).
      { destruct Iy as [ <- | Iy ]; [ exact Ix | ].
        rewrite Forall_forall in Fp. exact (Fp _ Iy). }
      left. destruct t as [ | z t ]; inversion Etail; subst.
      * split; [ exact (is_solve_not_in_try _ Ix) | ].
        split; [ right; split; assumption | ].
        exists e'. split; [ reflexivity | right ]. split; [ exact Ix | ].
        exists y. split; [ exact (Sub _ Iy) | split; assumption ].
      * pose proof Fp as Fp'. apply Forall_app in Fp'. destruct Fp' as [_ Fp'].
        inversion Fp' as [ | w l Iw Fl ]; subst.
        split; [ exact (is_solve_not_in_try _ Iw) | ].
        split; [ right; split; assumption | ].
        exists e'. split; [ reflexivity | right ]. split; [ exact Iw | ].
        exists y. split; [ exact (Sub _ Iy) | split; assumption ].
    + destruct t as [ | y [ | z [ | w t ] ] ]; inversion Etail; subst.
      * right. split; [ exact Ix | ]. exists h, (Returned h').
        split; [ reflexivity | ]. exists e.
        split; [ exact Tx | left; exists r ].
        split; [ reflexivity | split; [ exact Cr | exact Cd ] ].
      * discriminate Rc.
    + destruct t as [ | y [ | z [ | w t ] ] ]; inversion Etail; subst.
      * right. split; [ exact Ix | ]. exists h, (Returned h').
        split; [ reflexivity | ]. exists e.
        split; [ exact Tx | right; exists e2; split; [ reflexivity | exact Ce ] ].
      * discriminate Rc.
    + destruct t as [ | y [ | z [ | w t ] ] ]; inversion Etail; subst.
      * right. split; [ exact Ix | ]. exists h, (Thrown e'). eauto.
      * left. split; [ reflexivity | ]. split; [ left; reflexivity | ].
        exists e'. split; [ reflexivity | left; split; reflexivity ].
Qed.


Lemma failure_tail_thrown {A : Type} (c : completion A) (tail : list Call) :
  failure_tail c tail -> ~ Forall (fun x => returned x = true) tail.
Proof.
  intros F R. destruct F as [ e x Tx Ix | e x post y e' Tx Ix Fp Iy Ty
                            | e x r h h' Tx Ix Cr Cd | e x e2 h h' Tx Ix Ce
                            | e x h e' Tx Ix ];
    inversion R as [ | z l Rz Rl ]; subst;
    rewrite (thrown_not_returned _ Tx) in Rz; discriminate.
Qed.

(** When no call threw, [run] went through the whole loop. *)
Lemma run_success m res :
  completed (run config scenario m) = Return res ->
  Forall (fun c => returned c = true) (calls (run config scenario m)) ->
  success (calls (run config scenario m)) res.
Proof.
  intros E R.
  destruct (run_summary m) as [ [_ (res' & E' & S)] | (p & tail & Et & _ & F) ].
  - rewrite E in E'. inversion E'; subst. exact S.
  - exfalso. rewrite Et in R. apply Forall_app in R. destruct R as [_ R].
    exact (failure_tail_thrown F R).
Qed.

Lemma solve_results_in s (tr : list Call) :
  In s (solve_results tr) ->
  exists constraint ctx, In (constraint_solve constraint ctx (Returned s)) tr.
Proof.
  unfold solve_results. rewrite in_flat_map. intros (c & Ic & Is).
  destruct c as [ | | | constraint ctx [s' | e] | | | | | | ]; simpl in Is;
    try contradiction.
  destruct Is as [ <- | [] ]. exists constraint, ctx. exact Ic.
Qed.


(** ** The claims about [run] *)


(** C2, amended.  Every call made inside the [try] block of a combo
    (transformer, property, [toNumber]), whether it returned or threw, is
    followed, after calls of that block only, by
    [world._revertAndSnapshot(contextSnapshot)]: the argument is the handle
    the world returned last, which is what [contextSnapshot] holds.  A forker,
    solution or check that throws is the last call of [run]: that exit of
    the loop makes no revert. *)
Theorem world_reverted_after_try m :
  let r := run config scenario m in
  (forall pre c post,
     calls r = pre ++ c :: post -> in_try c = true ->
     exists mid rev rest,
       post = mid ++ world_revertAndSnapshot (last_snapshot EmptyString pre) rev :: rest /\
       Forall (fun x => in_try x = true) mid) /\
  (forall pre c post,
     calls r = pre ++ c :: post -> before_try c = true -> returned c = false ->
     post = [] /\ exists e, completed r = Throw e).
Proof.
  cbv zeta. split.
  - intros pre c post E Ic.
    eapply reverts_split; [ apply run_reverts | exact E | exact Ic ].
  - intros pre c post E Bc Rc.
    destruct (@run_failure_cases m pre c post E Rc)
      as [ (_ & [ Ep | [Is _] ] & e & Ec & _) | (Ic & _) ].
    + split; [ exact Ep | exists e; exact Ec ].
    + destruct c; discriminate.
    + rewrite (before_try_not_in_try _ Bc) in Ic. discriminate.
Qed.

(** C5, amended.  When [run] returns and none of its calls threw, and every
    solve resolved to a choice list that is not empty, at least one combo
    was executed: the counter [numSolutionSets] of the Result, which divides
    [cumulativeGas], was incremented once per property call, at least
    once. *)
Theorem success_counts_a_combo m res :
  let r := run config scenario m in
  completed r = Return res ->
  Forall (fun c => returned c = true) (calls r) ->
  (forall constraint ctx s,
     In (constraint_solve constraint ctx (Returned s)) (calls r) ->
     mapSolution s <> []) ->
  1 <= satisfied (calls r) /\
  Result.numSolutionSets res = VNumber (incremented (satisfied (calls r)) 0) /\
  Result.gasUsed res = (reported_gas 0 (calls r) / incremented (satisfied (calls r)) 0)%float.
Proof.
  cbv zeta. intros E R NE.
  destruct (run_success m E R) as (S & N & G & _).
  split; [ | split; assumption ].
  rewrite S. apply combos_nonempty. apply Forall_app. split.
  - repeat constructor. discriminate.
  - apply Forall_forall. intros c Ic. apply in_map_iff in Ic.
    destruct Ic as (s & <- & Is).
    destruct (solve_results_in _ _ Is) as (constraint & ctx & I').
    exact (NE constraint ctx s I').
Qed.


(** C9.  After the first call that throws, whatever it is, no property is
    invoked: the combos after the failing one are not attempted. *)
Theorem failure_short_circuits m pre c post :
  calls (run config scenario m) = pre ++ c :: post ->
  returned c = false ->
  Forall (fun x => is_property x = false) post.
Proof.
  intros E Rc.
  destruct (@run_failure_cases m pre c post E Rc)
    as [ (_ & [ -> | [_ F] ] & _) | (_ & h & rev & -> & _) ];
    try (repeat constructor).
  revert F. apply Forall_impl. intros x Ix. destruct x; try discriminate Ix; reflexivity.
Qed.


(** ** The identity combo and falsy results *)

Lemma calls_bind_ret {A B : Type} (c : M A) (f : A -> B) m :
  calls (bind c (fun x => ret (f x)) m) = calls (c m).
Proof.
  unfold bind, ret. destruct (c m) as [[a | r | e] m1 tr]; simpl;
    rewrite ?app_nil_r; reflexivity.
Qed.

Lemma identity_combo_calls startTime context l m :
  constraints_of scenario = [] ->
  one_identity_combo
    (calls (comboLoop config scenario startTime context [[identity]] l m)).
Proof.
  intros Hc. simpl comboLoop. rewrite (calls_bind_ret _ (fun l' => l')).
  unfold comboBody. rewrite bind_await.
  destruct (forker scenario context (env m)) as [[ctx | e] st].
  - right. simpl applySolutions.
    rewrite bind_assoc, bind_await. unfold identity at 1. cbn [env worldSnapshot].
    rewrite bind_ret, Hc. simpl checkAll. rewrite bind_ret.
    rewrite !prepend_calls, calls_bind_ret.
    destruct (tryStatement_shape startTime (or_else ctx ctx) l
                {| env := st; worldSnapshot := worldSnapshot m |})
      as (tr & o & rev & Ec & T & _).
    rewrite Ec. exists context, ctx, tr, (contextSnapshot l), rev.
    split; [ reflexivity | exact (try_trace_in_try T) ].
  - left. exists context, e. reflexivity.
Qed.

Lemma combos_baseSolutions (choices : list (list Solution)) :
  combos (baseSolutions ++ choices) = map (cons identity) (combos choices).
Proof. unfold baseSolutions. simpl. apply app_nil_r. Qed.

Lemma applySolutions_threaded combo ctx m :
  threaded ctx combo (calls (applySolutions config combo ctx m))
                     (completed (applySolutions config combo ctx m)).
Proof.
  revert ctx m. induction combo as [ | solution rest IH ]; intros ctx m; simpl.
  - apply threaded_done.
  - rewrite bind_await.
    destruct (solution ctx (world config) (env m)) as [[v | e] st1].
    + rewrite prepend_calls, prepend_completed. simpl. unfold or_else.
      destruct (truthy v) eqn:Tv.
      * apply threaded_truthy; [ exact Tv | apply IH ].
      * apply threaded_falsy; [ exact Tv | apply IH ].
    + apply threaded_throw.
Qed.

(** ** The Result of the failure path *)

Lemma run_returns_after_failure m pre c post e res :
  calls (run config scenario m) = pre ++ c :: post ->
  thrown_by c = Some e ->
  completed (run config scenario m) = Return res ->
  caught e res.
Proof.
  intros E Tc Er.
  destruct (@run_failure_cases m pre c post E (@thrown_not_returned c e Tc))
    as [ (_ & _ & e' & Ec & _) | (_ & h & rev & _ & R) ]; [ congruence | ].
  destruct rev as [ h' | e' ]; [ | congruence ].
  destruct R as (e' & Tc' & [ (res' & Er' & Cr & _) | (e2 & Er' & _) ]);
    [ | congruence ].
  rewrite Er in Er'. inversion Er'; subst res'.
  rewrite Tc in Tc'. inversion Tc'; subst e'. exact Cr.
Qed.

(** [generateResult], given the error as [err], does what its body says
    when [numSolutionSets] converts to a number: the error, its stack, and
    the diff of an assertion error whose [actual] and [expected] differ. *)
Lemma generateResult_with_error base0 startTime totalGas n err m d st :
  ToNumber n (env m) = (Returned d, st) ->
  exists res,
    generateResult base0 scenario startTime totalGas n err m =
    {| completed := Normal res;
       machine := {| env := st; worldSnapshot := worldSnapshot m |};
       calls := [] |} /\
    Result.numSolutionSets res = n /\
    Result.gasUsed res = (totalGas / d)%float /\
    Result.error res = or_else err VNull /\
    Result.trace res = (if truthy err then get_stack err else VNull) /\
    Result.diff res =
      (if instanceof_AssertionError err
       then if strict_equal (get_actual err) (get_expected err) then None
            else Some (get_actual err, get_expected err)
       else None).
Proof.
  intros Ed. unfold generateResult. rewrite bind_perform, Ed, bind_now. unfold ret.
  eexists. split; [ reflexivity | ]. simpl. repeat split.
  destruct (instanceof_AssertionError err); [ | reflexivity ].
  destruct (strict_equal (get_actual err) (get_expected err)); reflexivity.
Qed.

(** C3, on the failure path as the code has it.  When a call threw [e] and
    [run] returns, the Result's [numSolutionSets] holds [e], the thrown
    value, and not the count of the satisfied solution sets; its [error] is
    null.  The [catch] block passes [numSolutionSets] and [e] one parameter
    early: as [totalGas] and [numSolutionSets], with no [err]. *)
Theorem failure_result_holds_the_error m pre c post e res :
  calls (run config scenario m) = pre ++ c :: post ->
  thrown_by c = Some e ->
  completed (run config scenario m) = Return res ->
  Result.numSolutionSets res = e /\ Result.error res = VNull.
Proof.
  intros E Tc Er. destruct (run_returns_after_failure m pre c post E Tc Er)
    as (C1 & C2 & _). split; assumption.
Qed.

(** C4, as the code has it.  When a call threw [e] and [run] returns, the
    Result's [diff] is null and its [trace] is null, whatever [e] is: also
    for an assertion error whose [actual] and [expected] differ, since
    [generateResult] receives no [err]. *)
Theorem failure_result_has_no_diff m pre c post e res :
  calls (run config scenario m) = pre ++ c :: post ->
  thrown_by c = Some e ->
  completed (run config scenario m) = Return res ->
  Result.diff res = None /\ Result.trace res = VNull.
Proof.
  intros E Tc Er. destruct (run_returns_after_failure m pre c post E Tc Er)
    as (_ & _ & C3 & C4). split; assumption.
Qed.

End RunShape.

Section Tame.
Context `{Runtime}.
Variable U : Type.
Local Abbreviation M := (M U).
Local Abbreviation Call := (Call U).
Variable Q : Call -> Prop.
Variable P : Result.t -> Prop.

(** ** Computations that keep the runner's field, their calls and their
    Results in hand *)

Lemma tame_ret {A : Type} (a : A) : tame Q P (ret a).
Proof. intros m. repeat split; [ constructor | discriminate ]. Qed.

Lemma tame_return_ {A : Type} (r : Result.t) : P r -> tame Q P (@return_ _ U A r).
Proof.
  intros Pr m. repeat split; [ constructor | ].
  intros res E. inversion E; subst. exact Pr.
Qed.

Lemma tame_now : tame Q P now.
Proof. intros m. repeat split; [ constructor | discriminate ]. Qed.

Lemma tame_awaited {A : Type} (promise : outcome A) : tame Q P (awaited promise).
Proof.
  intros m. repeat split; [ constructor | ].
  destruct promise; discriminate.
Qed.

Lemma tame_await {A : Type} (label : outcome A -> Call) (f : Async A) :
  (forall st, Q (label (fst (f st)))) -> tame Q P (await label f).
Proof.
  intros Ql m. unfold await. specialize (Ql (env m)).
  destruct (f (env m)) as [r st]. simpl in *.
  repeat split; [ repeat constructor; exact Ql | ].
  destruct r; discriminate.
Qed.

Lemma tame_settle {A : Type} (label : outcome A -> Call) (f : Async A) :
  (forall st, Q (label (fst (f st)))) -> tame Q P (settle label f).
Proof.
  intros Ql m. unfold settle. specialize (Ql (env m)).
  destruct (f (env m)) as [r st]. simpl in *.
  repeat split; [ repeat constructor; exact Ql | discriminate ].
Qed.

Lemma tame_invoke {A : Type} (label : outcome A -> Call) (r : outcome A) :
  Q (label r) -> tame Q P (invoke label r).
Proof.
  intros Ql m. repeat split; [ repeat constructor; exact Ql | ].
  destruct r; discriminate.
Qed.

Lemma tame_perform {A : Type} (f : Async A) : tame Q P (perform f).
Proof.
  intros m. unfold perform. destruct (f (env m)) as [r st]. simpl.
  repeat split; [ constructor | ]. destruct r; discriminate.
Qed.

Lemma tame_await_all {A : Type} (promises : list (outcome A)) :
  tame Q P (await_all promises).
Proof. intros m. unfold await_all. apply tame_awaited. Qed.

Lemma tame_bind {A B : Type} (c : M A) (k : A -> M B) :
  tame Q P c -> (forall a, tame Q P (k a)) -> tame Q P (bind c k).
Proof.
  intros Hc Hk m. destruct (Hc m) as (W & F & R). unfold bind.
  destruct (c m) as [[a | r | e] m1 tr]; simpl in *.
  - destruct (Hk a m1) as (W' & F' & R').
    destruct (k a m1) as [x m2 tr2]. simpl in *.
    split; [ congruence | ]. split; [ apply Forall_app; split; assumption | exact R' ].
  - split; [ exact W | split; [ exact F | ] ].
    intros res E. inversion E; subst. apply R. reflexivity.
  - split; [ exact W | split; [ exact F | discriminate ] ].
Qed.

Lemma tame_try_catch_finally {A B : Type}
    (body : M A) (handler : value -> M A) (finalizer : M B) :
  tame Q P body -> (forall e, tame Q P (handler e)) -> tame Q P finalizer ->
  tame Q P (try_catch_finally body handler finalizer).
Proof.
  intros Hb Hh Hf m. unfold try_catch_finally.
  assert (S : forall (x : completion A) m2 tr2,
             worldSnapshot m2 = worldSnapshot m -> Forall Q tr2 ->
             (forall res, x = Return res -> P res) ->
             let r := match finalizer m2 with
                      | {| completed := Normal b; machine := m3; calls := tr' |} =>
                          {| completed :=
                               match x with
                               | Normal a => Normal (a, b)
                               | Return y => Return y
                               | Throw e => Throw e
                               end;
                             machine := m3; calls := tr2 ++ tr' |}
                      | {| completed := Return y; machine := m3; calls := tr' |} =>
                          {| completed := Return y; machine := m3; calls := tr2 ++ tr' |}
                      | {| completed := Throw e; machine := m3; calls := tr' |} =>
                          {| completed := Throw e; machine := m3; calls := tr2 ++ tr' |}
                      end in
             worldSnapshot (machine r) = worldSnapshot m /\
             Forall Q (calls r) /\
             forall res, completed r = Return res -> P res).
  { intros x m2 tr2 W2 F2 R2. cbv zeta.
    destruct (Hf m2) as (W3 & F3 & R3).
    destruct (finalizer m2) as [[b | r3 | e3] m3 tr3]; simpl in *;
      (split; [ congruence | ]); (split; [ apply Forall_app; split; assumption | ]).
    - intros res E. destruct x; inversion E; subst. apply R2. reflexivity.
    - intros res E. inversion E; subst. apply R3. reflexivity.
    - discriminate. }
  destruct (Hb m) as (W1 & F1 & R1).
  destruct (body m) as [[a | r | e] m1 tr1]; cbn [completed machine calls] in W1, F1, R1.
  - exact (S (Normal a) m1 tr1 W1 F1 R1).
  - exact (S (Return r) m1 tr1 W1 F1 R1).
  - destruct (Hh e m1) as (W2 & F2 & R2).
    destruct (handler e m1) as [x m2 tr2]; cbn [completed machine calls] in W2, F2, R2.
    refine (S x m2 (tr1 ++ tr2) _ _ R2);
      [ congruence | apply Forall_app; split; assumption ].
Qed.

End Tame.

Section Anatomy.
Context `{Runtime}.
Variable U : Type.
Variable config : Config.
Variable scenario : Scenario U.
Local Abbreviation M := (M U).
Local Abbreviation Call := (Call U).
Local Abbreviation applySolutions := (@applySolutions _ U).

(** ** The calls of [run] after the context snapshot, and its Results *)

(** What holds of the calls [run] makes once the context snapshot is taken,
    [context] being the context of the initializer. *)
Local Abbreviation sound context :=
  (fun c : Call => after_context context c /\ genuine config scenario c).

Lemma tame_generateResult {A : Type} (Q : Call -> Prop) startTime totalGas n err :
  tame Q (labelled config scenario)
    (bind (generateResult (base config) scenario startTime totalGas n err)
       (fun r => @return_ _ U A r)).
Proof.
  intros m. unfold generateResult. rewrite bind_assoc, bind_perform.
  destruct (ToNumber n (env m)) as [[d | e] st].
  - rewrite bind_assoc, bind_now, bind_ret. simpl.
    split; [ reflexivity | ]. split; [ constructor | ].
    intros res E. inversion E; subst. repeat split.
  - simpl. split; [ reflexivity | ]. split; [ constructor | discriminate ].
Qed.

Lemma tame_startSolves P context cs :
  tame (sound context) P (startSolves config scenario context cs).
Proof.
  induction cs as [ | c rest IH ]; simpl.
  - apply tame_ret.
  - apply tame_bind.
    + apply tame_settle. intros st. split; [ reflexivity | exists st; reflexivity ].
    + intros promise. apply tame_bind; [ exact IH | ].
      intros promises. apply tame_ret.
Qed.

Lemma tame_applySolutions P context combo ctx :
  tame (sound context) P (applySolutions config combo ctx).
Proof.
  revert ctx. induction combo as [ | solution rest IH ]; intros ctx; simpl.
  - apply tame_ret.
  - apply tame_bind; [ | intros r; apply IH ].
    apply tame_await. intros st. split; [ exact I | exists st; reflexivity ].
Qed.

Lemma tame_checkAll P context cs ctx :
  tame (sound context) P (checkAll config scenario cs ctx).
Proof.
  induction cs as [ | c rest IH ]; simpl.
  - apply tame_ret.
  - apply tame_bind; [ | intros _; exact IH ].
    apply tame_await. intros st. split; [ exact I | exists st; reflexivity ].
Qed.

Lemma tame_tryStatement context startTime ctx l :
  tame (sound context) (labelled config scenario)
    (tryStatement config scenario startTime ctx l).
Proof.
  unfold tryStatement. apply tame_try_catch_finally.
  - apply tame_bind.
    { apply tame_await. intros st. split; [ exact I | exists st; reflexivity ]. }
    intros v. apply tame_bind.
    { apply tame_await. intros st. split; [ exact I | exists st; reflexivity ]. }
    intros txnReceipt.
    apply tame_bind; [ | intros gas; apply tame_ret ].
    destruct txnReceipt as [ receipt | ]; [ | apply tame_ret ].
    apply tame_bind; [ | intros g; apply tame_ret ].
    apply tame_invoke. split; [ exact I | reflexivity ].
  - intros e. apply tame_generateResult.
  - apply tame_await. intros st. split; [ exact I | exists st; reflexivity ].
Qed.

Lemma tame_comboBody context startTime combo l :
  tame (sound context) (labelled config scenario)
    (comboBody config scenario startTime context combo l).
Proof.
  unfold comboBody. apply tame_bind.
  { apply tame_await. intros st. split; [ reflexivity | exists st; reflexivity ]. }
  intros ctx0.
  apply tame_bind; [ apply tame_applySolutions | ]. intros ctx.
  apply tame_bind; [ apply tame_checkAll | ]. intros _.
  apply tame_bind; [ apply tame_tryStatement | ]. intros r. apply tame_ret.
Qed.

Lemma tame_comboLoop context startTime combos l :
  tame (sound context) (labelled config scenario)
    (comboLoop config scenario startTime context combos l).
Proof.
  revert l. induction combos as [ | combo rest IH ]; intros l; simpl.
  - apply tame_ret.
  - apply tame_bind; [ apply tame_comboBody | ]. intros l'. apply IH.
Qed.

(** What [run] does once the context snapshot [cs] is taken. *)
Lemma tame_after_snapshot startTime context cs :
  tame (sound context) (labelled config scenario)
    (bind (startSolves config scenario context (constraints_of scenario))
       (fun promises =>
          bind (await_all promises)
            (fun solutionChoices =>
               bind (comboLoop config scenario startTime context
                       (combos (baseSolutions ++ solutionChoices))
                       {| contextSnapshot := cs; cumulativeGas := 0;
                          numSolutionSets := 0 |})
                 (fun l =>
                    bind (generateResult (base config) scenario startTime
                            (cumulativeGas l) (VNumber (numSolutionSets l))
                            VUndefined)
                      (fun r => @return_ _ U Result.t r))))).
Proof.
  apply tame_bind; [ apply tame_startSolves | ]. intros promises.
  apply tame_bind; [ apply tame_await_all | ]. intros solutionChoices.
  apply tame_bind; [ apply tame_comboLoop | ]. intros l.
  apply tame_generateResult.
Qed.

Lemma Forall_sound context (tr : list Call) :
  Forall (sound context) tr ->
  Forall (after_context context) tr /\ Forall (genuine config scenario) tr.
Proof.
  intros F. split; revert F; apply Forall_impl; intros c [A G]; assumption.
Qed.

Lemma run_anatomy m :
  anatomy m (run config scenario m) /\
  (forall res, completed (run config scenario m) = Return res ->
               labelled config scenario res) /\
  Forall (genuine config scenario) (calls (run config scenario m)).
Proof.
  assert (G0 : forall o st,
             fst (if is_set (worldSnapshot m)
                  then _revertAndSnapshot (world config) (handle_of (worldSnapshot m)) st
                  else _snapshot (world config) st) = o ->
             genuine config scenario (reset_call (worldSnapshot m) o)).
  { intros o st E. unfold reset_call.
    destruct (is_set (worldSnapshot m)); exists st; exact E. }
  unfold run, anatomy. rewrite bind_now, bind_get_worldSnapshot.
  unfold reset_call in *.
  destruct (is_set (worldSnapshot m)).
  - rewrite bind_assoc, bind_await.
    pose proof (fun o => G0 o (env m)) as G1.
    destruct (_revertAndSnapshot (world config) (handle_of (worldSnapshot m)) (env m))
      as [[s | e] st].
    + specialize (G1 _ eq_refl).
      rewrite bind_set_worldSnapshot, bind_await. cbn [env worldSnapshot].
      assert (G2 : forall o, fst (initializer scenario (world config) st) = o ->
                             genuine config scenario (scenario_initializer o)).
      { intros o E. exists st. exact E. }
      destruct (initializer scenario (world config) st) as [[context | e] st1].
      * specialize (G2 _ eq_refl).
        rewrite bind_await. cbn [env worldSnapshot].
        assert (G3 : forall o, fst (_snapshot (world config) st1) = o ->
                               genuine config scenario (world_snapshot o)).
        { intros o E. exists st1. exact E. }
        destruct (_snapshot (world config) st1) as [[cs | e] st2].
        -- specialize (G3 _ eq_refl). rewrite !prepend_prepend.
           destruct (tame_after_snapshot (Date_now (env m)) context cs
                       {| env := st2; worldSnapshot := Some s |}) as (W & F & R).
           destruct (@Forall_sound context _ F) as [Fa Fg].
           rewrite prepend_calls, prepend_completed.
           split; [ | split; [ exact R | ] ].
           ++ eexists (Returned s), _. split; [ reflexivity | ].
              split; [ destruct (bind _ _ _); exact W | ].
              eexists (Returned context), _. split; [ reflexivity | ].
              eexists (Returned cs), _. split; [ reflexivity | exact Fa ].
           ++ repeat (constructor; [ assumption | ]). exact Fg.
        -- specialize (G3 _ eq_refl).
           split; [ | split; [ discriminate | repeat constructor; assumption ] ].
           exists (Returned s), [scenario_initializer (Returned context);
                                 world_snapshot (Thrown e)].
           repeat split.
           exists (Returned context), [world_snapshot (Thrown e)]. repeat split.
           exists (Thrown e), []. repeat split.
      * specialize (G2 _ eq_refl).
        split; [ | split; [ discriminate | repeat constructor; assumption ] ].
        exists (Returned s), [scenario_initializer (Thrown e)]. repeat split.
        exists (Thrown e), []. repeat split.
    + specialize (G1 _ eq_refl).
      split; [ | split; [ discriminate | repeat constructor; assumption ] ].
      exists (Thrown e), []. repeat split.
  - rewrite bind_assoc, bind_await.
    pose proof (fun o => G0 o (env m)) as G1.
    destruct (_snapshot (world config) (env m)) as [[s | e] st].
    + specialize (G1 _ eq_refl).
      rewrite bind_set_worldSnapshot, bind_await. cbn [env worldSnapshot].
      assert (G2 : forall o, fst (initializer scenario (world config) st) = o ->
                             genuine config scenario (scenario_initializer o)).
      { intros o E. exists st. exact E. }
      destruct (initializer scenario (world config) st) as [[context | e] st1].
      * specialize (G2 _ eq_refl).
        rewrite bind_await. cbn [env worldSnapshot].
        assert (G3 : forall o, fst (_snapshot (world config) st1) = o ->
                               genuine config scenario (world_snapshot o)).
        { intros o E. exists st1. exact E. }
        destruct (_snapshot (world config) st1) as [[cs | e] st2].
        -- specialize (G3 _ eq_refl). rewrite !prepend_prepend.
           destruct (tame_after_snapshot (Date_now (env m)) context cs
                       {| env := st2; worldSnapshot := Some s |}) as (W & F & R).
           destruct (@Forall_sound context _ F) as [Fa Fg].
           rewrite prepend_calls, prepend_completed.
           split; [ | split; [ exact R | ] ].
           ++ eexists (Returned s), _. split; [ reflexivity | ].
              split; [ destruct (bind _ _ _); exact W | ].
              eexists (Returned context), _. split; [ reflexivity | ].
              eexists (Returned cs), _. split; [ reflexivity | exact Fa ].
           ++ repeat (constructor; [ assumption | ]). exact Fg.
        -- specialize (G3 _ eq_refl).
           split; [ | split; [ discriminate | repeat constructor; assumption ] ].
           exists (Returned s), [scenario_initializer (Returned context);
                                 world_snapshot (Thrown e)].
           repeat split.
           exists (Returned context), [world_snapshot (Thrown e)]. repeat split.
           exists (Thrown e), []. repeat split.
      * specialize (G2 _ eq_refl).
        split; [ | split; [ discriminate | repeat constructor; assumption ] ].
        exists (Returned s), [scenario_initializer (Thrown e)]. repeat split.
        exists (Thrown e), []. repeat split.
    + specialize (G1 _ eq_refl).
      split; [ | split; [ discriminate | repeat constructor; assumption ] ].
      exists (Thrown e), []. repeat split.
Qed.

End Anatomy.

(** * Further properties of the code *)

Section CombosAlgebra.

Lemma map_flat_map (A B C : Type) (f : B -> C) (g : A -> list B) (l : list A) :
  map f (flat_map g l) = flat_map (fun x => map f (g x)) l.
Proof.
  induction l as [ | a l IH ]; simpl; [ reflexivity | ].
  rewrite map_app, IH. reflexivity.
Qed.

Lemma flat_map_map (A B C : Type) (f : A -> B) (g : B -> list C) (l : list A) :
  flat_map g (map f l) = flat_map (fun x => g (f x)) l.
Proof.
  induction l as [ | a l IH ]; simpl; [ reflexivity | ].
  rewrite IH. reflexivity.
Qed.

Lemma flat_map_flat_map (A B C : Type) (f : A -> list B) (g : B -> list C)
    (l : list A) :
  flat_map g (flat_map f l) = flat_map (fun x => flat_map g (f x)) l.
Proof.
  induction l as [ | a l IH ]; simpl; [ reflexivity | ].
  rewrite flat_map_app, IH. reflexivity.
Qed.

Lemma NoDup_map_cons (A : Type) (x : A) (l : list (list A)) :
  NoDup l -> NoDup (map (cons x) l).
Proof.
  induction 1 as [ | a l Na _ IH ]; simpl; constructor; [ | exact IH ].
  intros I. apply in_map_iff in I. destruct I as (b & E & Ib).
  inversion E; subst. contradiction.
Qed.


(** [combos] yields nothing exactly when one of the choice lists is empty:
    an empty list of options leaves no way to complete a combo, and
    otherwise there is at least one. *)
Theorem combos_empty_iff (T : Type) (choices : list (list T)) :
  combos choices = [] <-> In [] choices.
Proof.
  induction choices as [ | c rest IH ].
  - simpl. split; [ discriminate | intros [] ].
  - rewrite combos_cons. destruct c as [ | x c ].
    + simpl. split; [ left; reflexivity | reflexivity ].
    + simpl. split.
      * intros E. apply app_eq_nil in E. destruct E as [E _].
        apply map_eq_nil in E. right. apply IH. exact E.
      * intros [ E | I ]; [ discriminate E | ].
        apply IH in I. rewrite I. simpl.
        apply length_zero_iff_nil.
        rewrite (@length_flat_map_const _ _ _ c 0); [ lia | reflexivity ].
Qed.

(** The combos of two sequences of choice lists put end to end: each combo
    of the first sequence, in order, followed by each combo of the second,
    in order.  The recursion of the generator on [choices.slice(1)]
    composes. *)
Theorem combos_app (T : Type) (xs ys : list (list T)) :
  combos (xs ++ ys) =
  flat_map (fun a => map (fun b => a ++ b) (combos ys)) (combos xs).
Proof.
  induction xs as [ | c xs IH ].
  - simpl. rewrite app_nil_r, map_id. reflexivity.
  - simpl app. rewrite !combos_cons, IH, flat_map_flat_map.
    apply flat_map_ext. intros option.
    rewrite map_flat_map, flat_map_map.
    apply flat_map_ext. intros a. rewrite map_map. reflexivity.
Qed.

(** When no choice list holds an option twice, no combo is yielded twice. *)
Theorem combos_NoDup (T : Type) (choices : list (list T)) :
  Forall (@NoDup T) choices -> NoDup (combos choices).
Proof.
  induction 1 as [ | c rest Nc _ IH ].
  - simpl. constructor; [ intros [] | constructor ].
  - rewrite combos_cons. induction Nc as [ | x c Nx Nc IHc ]; simpl.
    + constructor.
    + apply NoDup_app.
      * apply NoDup_map_cons. exact IH.
      * exact IHc.
      * intros combo I1 I2. apply in_map_iff in I1. destruct I1 as (tl & <- & _).
        apply in_flat_map in I2. destruct I2 as (y & Iy & I2).
        apply in_map_iff in I2. destruct I2 as (tl' & E & _).
        inversion E; subst. contradiction.
Qed.

(** [mapSolution] gives no option exactly for a solve that resolved to the
    empty array: null gives the identity, a bare solution gives itself. *)
Theorem mapSolution_empty_iff `{Runtime} (s : option (OneOrMany Solution)) :
  mapSolution s = [] <-> s = Some (Many []).
Proof.
  destruct s as [ [ x | l ] | ]; simpl; split; try discriminate.
  - intros ->. reflexivity.
  - intros E. inversion E. reflexivity.
Qed.

End CombosAlgebra.

Section RunFacts.
Context `{Runtime}.
Variable U : Type.
Variable config : Config.
Variable scenario : Scenario U.
Local Abbreviation M := (M U).
Local Abbreviation Call := (Call U).
Local Abbreviation applySolutions := (@applySolutions _ U).

(** ** The world reset and the field [worldSnapshot] *)

(** [run] begins with the world reset: [_revertAndSnapshot] on the field
    [this.worldSnapshot] when it holds a string that is not empty,
    [_snapshot] otherwise.  When [run] ends, however it ends, the field holds
    the handle that call returned, and what it held before when the call
    threw: nothing that follows assigns it. *)
Theorem run_begins_with_world_reset m :
  exists o rest,
    calls (run config scenario m) = reset_call (worldSnapshot m) o :: rest /\
    worldSnapshot (machine (run config scenario m)) = assigned (worldSnapshot m) o.
Proof.
  destruct (run_anatomy config scenario m) as [(o & rest & Ec & Ew & _) _].
  exists o, rest. split; assumption.
Qed.

(** The first [run] of a runner: the constructor leaves [worldSnapshot]
    undefined, so the world is not reverted but snapshotted, and the field
    stays undefined when that snapshot fails. *)
Theorem new_runner_snapshots_first st :
  exists o rest,
    calls (run config scenario (new_Runner st)) = world_snapshot o :: rest /\
    worldSnapshot (machine (run config scenario (new_Runner st))) =
      match o with
      | Returned h => Some h
      | Thrown _ => None
      end.
Proof.
  destruct (run_anatomy config scenario (new_Runner st)) as [(o & rest & Ec & Ew & _) _].
  exists o, rest. split; [ exact Ec | exact Ew ].
Qed.

(** ** The context of the initializer *)

(** Every fork and every solve is given the context that the initializer
    returned: the loop forks the initial context anew for each combo, never
    the context a previous combo worked on. *)
Theorem forks_and_solves_get_initial_context m x :
  (exists o, In (scenario_forker x o) (calls (run config scenario m))) \/
  (exists constraint o,
     In (constraint_solve constraint x o) (calls (run config scenario m))) ->
  nth_error (calls (run config scenario m)) 1 = Some (scenario_initializer (Returned x)).
Proof.
  intros I.
  assert (G : exists c, In c (calls (run config scenario m)) /\
                        ((exists y, c = scenario_forker x y) \/
                         (exists k y, c = constraint_solve k x y))).
  { destruct I as [ (y & I) | (k & y & I) ].
    - exists (scenario_forker x y). split; [ exact I | left; exists y; reflexivity ].
    - exists (constraint_solve k x y).
      split; [ exact I | right; exists k, y; reflexivity ]. }
  clear I. destruct G as (c & Ic & Kc).
  destruct (run_anatomy config scenario m) as [(o & rest & Ec & _ & A) _].
  rewrite Ec in *. clear Ec.
  destruct Ic as [ E | Ic ].
  { exfalso. unfold reset_call in E.
    destruct (is_set (worldSnapshot m)), Kc as [ (y & ->) | (k & y & ->) ];
      discriminate E. }
  destruct o as [ h | e ]; [ | subst rest; destruct Ic ].
  destruct A as (oi & rest1 & -> & A).
  destruct Ic as [ E | Ic ].
  { exfalso. destruct Kc as [ (y & ->) | (k & y & ->) ]; discriminate E. }
  destruct oi as [ context | e ]; [ | subst rest1; destruct Ic ].
  destruct A as (os & rest2 & -> & A). simpl. do 2 f_equal.
  destruct Ic as [ E | Ic ].
  { exfalso. destruct Kc as [ (y & ->) | (k & y & ->) ]; discriminate E. }
  destruct os as [ cs | e ]; [ | subst rest2; destruct Ic ].
  rewrite Forall_forall in A. specialize (A c Ic).
  destruct Kc as [ (y & ->) | (k & y & ->) ]; simpl in A; congruence.
Qed.

(** The initializer is called at most once, as the second call of [run]:
    no combo initializes a context of its own. *)
Theorem initializer_is_the_second_call m i o :
  nth_error (calls (run config scenario m)) i = Some (scenario_initializer o) ->
  i = 1.
Proof.
  intros E.
  destruct (run_anatomy config scenario m) as [(o0 & rest & Ec & _ & A) _].
  rewrite Ec in E. clear Ec.
  destruct i as [ | i ].
  { simpl in E. unfold reset_call in E.
    destruct (is_set (worldSnapshot m)); inversion E. }
  simpl in E. destruct i as [ | i ]; [ reflexivity | exfalso ].
  destruct o0 as [ h | e ]; [ | subst rest; destruct i; discriminate E ].
  destruct A as (oi & rest1 & -> & A). simpl in E.
  destruct oi as [ context | e ]; [ | subst rest1; destruct i; discriminate E ].
  destruct A as (os & rest2 & -> & A).
  destruct i as [ | i ]; [ discriminate E | ]. simpl in E.
  destruct os as [ cs | e ]; [ | subst rest2; destruct i; discriminate E ].
  apply nth_error_In in E. rewrite Forall_forall in A. exact (A _ E).
Qed.

(** ** The Results of [run] *)

(** Whatever Result [run] returns, from the [catch] block or after the
    loop, names what was run: [base] is the name of the configured base,
    [scenario] the scenario's name, [file] the scenario's file, and its name
    when it has no file or an empty one. *)
Theorem results_name_the_scenario m res :
  completed (run config scenario m) = Return res ->
  Result.base res = ForkSpec.name (base config) /\
  Result.scenario res = name scenario /\
  Result.file res =
    match file scenario with
    | Some f => if truthy (VString f) then f else name scenario
    | None => name scenario
    end.
Proof.
  intros E. destruct (run_anatomy config scenario m) as (_ & L & _).
  destruct (L res E) as (L1 & L2 & L3). split; [ exact L1 | ]. split; [ exact L2 | ].
  rewrite L3. destruct (file scenario) as [ [ | a f ] | ]; reflexivity.
Qed.

(** ** The solves *)

Lemma quiet_in_setup_solves (setup : list Call) :
  quiet in_setup setup ->
  List.length (filter is_solve setup) = List.length (solve_results setup).
Proof.
  induction 1 as [ | c setup [Pc Rc] _ IH ]; [ reflexivity | ].
  destruct c as [ | | | k ctx [ s | e ] | | | | | | ]; try discriminate Pc;
    try discriminate Rc; simpl; congruence.
Qed.

Lemma body_solve_free l c (tr : list Call) :
  body_shape l c tr -> Forall (fun x => is_solve x = false) tr.
Proof.
  assert (P : forall pre : list Call, quiet before_try pre ->
                          Forall (fun x => is_solve x = false) pre).
  { intros pre. apply Forall_impl. intros x [Px _].
    destruct x; try discriminate Px; reflexivity. }
  assert (T : forall o (t : list Call), try_trace l o t -> Forall (fun x => is_solve x = false) t).
  { intros o t Ht. inversion Ht; repeat constructor. }
  intros B. destruct B; repeat (apply Forall_app; split); eauto;
    repeat constructor.
  destruct c; try discriminate; reflexivity.
Qed.

Lemma loop_solve_free l c (tr : list Call) :
  loop_shape l c tr -> Forall (fun x => is_solve x = false) tr.
Proof.
  induction 1 as [ l | l l' tr c rest B L IH | l c tr B NN ].
  - constructor.
  - apply Forall_app. split; [ exact (body_solve_free B) | exact IH ].
  - exact (body_solve_free B).
Qed.

Lemma filter_none (A : Type) (f : A -> bool) (l : list A) :
  Forall (fun x => f x = false) l -> filter f l = [].
Proof.
  induction 1 as [ | x l Fx _ IH ]; simpl; [ reflexivity | ].
  rewrite Fx. exact IH.
Qed.

(** When [run] returns a Result, each constraint was solved once: the
    solves are made before the loop, none inside it, whatever the number of
    combos. *)
Theorem each_constraint_solved_once m res :
  completed (run config scenario m) = Return res ->
  List.length (filter is_solve (calls (run config scenario m))) =
  List.length (constraints_of scenario).
Proof.
  intros E.
  destruct (run_cases config scenario m)
    as [ F | (setup & startTime & context & m' & Q & Ls & Et & _) ].
  { destruct (setup_failed_throws F) as (e & Ec). congruence. }
  cbv zeta in Et. rewrite Et, filter_app, length_app, (quiet_in_setup_solves Q), Ls.
  rewrite (filter_none _ (loop_solve_free (comboLoop_shape _ _ _ _ _ _ _))).
  simpl. lia.
Qed.


(** ** The checks before the property *)

Lemma guarded_app cs (before a b : list Call) :
  guarded cs before a -> guarded cs (before ++ a) b -> guarded cs before (a ++ b).
Proof.
  revert before. induction a as [ | c a IH ]; simpl; intros before Ga Gb.
  - rewrite app_nil_r in Gb. exact Gb.
  - destruct Ga as [G1 G2]. split; [ exact G1 | ].
    apply IH; [ exact G2 | ]. rewrite <- app_assoc. exact Gb.
Qed.

Lemma guarded_no_property cs (before tr : list Call) :
  Forall (fun c => is_property c = false) tr -> guarded cs before tr.
Proof.
  intros F. revert before. induction F as [ | c tr Pc _ IH ]; intros before; simpl.
  - exact I.
  - split; [ destruct c; try exact I; discriminate Pc | apply IH ].
Qed.

Lemma guarded_split cs (before tr : list Call) :
  guarded cs before tr ->
  forall pre v ctx o post,
    tr = pre ++ scenario_property v ctx o :: post ->
    exists earlier,
      before ++ pre =
      earlier ++ map (fun constraint => constraint_check constraint ctx (Returned tt)) cs
              ++ [scenario_transformer ctx (Returned v)].
Proof.
  revert before. induction tr as [ | c tr IH ]; intros before G pre v ctx o post E.
  - destruct pre; discriminate E.
  - destruct G as [G1 G2]. destruct pre as [ | x pre ].
    + inversion E; subst. rewrite app_nil_r. exact G1.
    + inversion E; subst.
      destruct (IH _ G2 pre v ctx o post eq_refl) as (earlier & Ee).
      exists earlier. rewrite <- Ee, <- app_assoc. reflexivity.
Qed.

Lemma straight_no_property {A : Type} (c : completion A) (tr : list Call) :
  straight_ends before_try c tr -> Forall (fun x => is_property x = false) tr.
Proof.
  assert (P : forall pre : list Call, quiet before_try pre ->
                          Forall (fun x => is_property x = false) pre).
  { intros pre. apply Forall_impl. intros x [Px _].
    destruct x; try discriminate Px; reflexivity. }
  intros S. destruct S as [ a tr Q | e pre x Q Px Tx ]; [ exact (P _ Q) | ].
  apply Forall_app. split; [ exact (P _ Q) | ].
  repeat constructor. destruct x; try discriminate Px; reflexivity.
Qed.

Lemma guarded_after {A B : Type} cs (c : M A) (k : A -> M B) :
  straight before_try c ->
  (forall a before m, guarded cs before (calls (k a m))) ->
  forall before m, guarded cs before (calls (bind c k m)).
Proof.
  intros Hc Hk before m. pose proof (straight_no_property (Hc m)) as F.
  destruct (completed (c m)) as [a | r | e] eqn:E.
  - rewrite (bind_normal c k m E), prepend_calls.
    apply guarded_app; [ apply guarded_no_property; exact F | apply Hk ].
  - rewrite (bind_return c k m E). apply guarded_no_property. exact F.
  - rewrite (bind_throw c k m E). apply guarded_no_property. exact F.
Qed.

(** The checks: one call for each constraint, in their order, until one
    throws. *)
Lemma checkAll_checked cs ctx m :
  checked ctx cs (calls (checkAll config scenario cs ctx m))
                 (completed (checkAll config scenario cs ctx m)).
Proof.
  revert m. induction cs as [ | c rest IH ]; intros m; simpl.
  - apply checked_done.
  - rewrite bind_await.
    destruct (check c (requirements scenario) ctx (world config) (env m))
      as [[[] | e] st].
    + rewrite prepend_calls, prepend_completed. apply checked_next. apply IH.
    + apply checked_throw.
Qed.

Lemma checked_passed ctx cs (tr : list Call) u :
  checked ctx cs tr (Normal u) ->
  tr = map (fun constraint => constraint_check constraint ctx (Returned tt)) cs.
Proof.
  intros C. remember (Normal u) as x eqn:Ex. revert Ex.
  induction C as [ | c rest e | c rest tr x C IH ]; intros Ex.
  - reflexivity.
  - discriminate Ex.
  - simpl. rewrite (IH Ex). reflexivity.
Qed.

Lemma tryStatement_guarded cs earlier startTime ctx l m :
  guarded cs
    (earlier ++ map (fun constraint => constraint_check constraint ctx (Returned tt)) cs)
    (calls (tryStatement config scenario startTime ctx l m)).
Proof.
  assert (K : forall v,
             exists earlier',
               (earlier ++ map (fun constraint : Constraint U =>
                                  @constraint_check _ U constraint ctx (Returned tt)) cs)
                 ++ [scenario_transformer ctx (Returned v)] =
               earlier' ++ map (fun constraint =>
                                  constraint_check constraint ctx (Returned tt)) cs
                        ++ [scenario_transformer ctx (Returned v)]).
  { intros v. exists earlier. rewrite <- app_assoc. reflexivity. }
  destruct (tryStatement_shape config scenario startTime ctx l m)
    as (tr & o & rev & Ec & _ & B & _).
  rewrite Ec. inversion B; subst; simpl; repeat split; apply K.
Qed.

Lemma comboBody_guarded startTime context combo l before m :
  guarded (constraints_of scenario) before
    (calls (comboBody config scenario startTime context combo l m)).
Proof.
  unfold comboBody. revert before m.
  apply guarded_after; [ apply straight_await; reflexivity | ]. intros ctx0.
  apply guarded_after; [ apply straight_applySolutions | ]. intros ctx before m.
  pose proof (straight_no_property (straight_checkAll config scenario
                                      (constraints_of scenario) ctx m)) as F.
  pose proof (checkAll_checked (constraints_of scenario) ctx m) as C.
  destruct (completed (checkAll config scenario (constraints_of scenario) ctx m))
    as [u | r | e] eqn:E.
  - rewrite (bind_normal _ _ m E), prepend_calls, calls_bind_ret.
    apply guarded_app; [ apply guarded_no_property; exact F | ].
    rewrite (checked_passed C). apply tryStatement_guarded.
  - rewrite (bind_return _ _ m E). apply guarded_no_property. exact F.
  - rewrite (bind_throw _ _ m E). apply guarded_no_property. exact F.
Qed.

Lemma comboLoop_guarded startTime context combos l before m :
  guarded (constraints_of scenario) before
    (calls (comboLoop config scenario startTime context combos l m)).
Proof.
  revert l before m. induction combos as [ | combo rest IH ]; intros l before m; simpl.
  - exact I.
  - pose proof (comboBody_guarded startTime context combo l before m) as G.
    destruct (completed (comboBody config scenario startTime context combo l m))
      as [l' | r | e] eqn:E.
    + rewrite (bind_normal _ _ m E), prepend_calls.
      apply guarded_app; [ exact G | apply IH ].
    + rewrite (bind_return _ _ m E). exact G.
    + rewrite (bind_throw _ _ m E). exact G.
Qed.

Lemma in_setup_no_property (c : Call) : in_setup c = true -> is_property c = false.
Proof. destruct c; simpl; congruence. Qed.

Lemma run_guarded m :
  guarded (constraints_of scenario) [] (calls (run config scenario m)).
Proof.
  destruct (run_cases config scenario m)
    as [ (e & pre & c & post & Ec & Q & Pc & _ & Pp)
       | (setup & startTime & context & m' & Q & _ & Et & _) ].
  - rewrite Ec. apply guarded_no_property. apply Forall_app. split.
    + revert Q. apply Forall_impl. intros x [Px _]. exact (in_setup_no_property _ Px).
    + constructor; [ exact (in_setup_no_property _ Pc) | ].
      destruct Pp as [ [-> _] | (_ & Fp & _) ]; [ constructor | ].
      revert Fp. apply Forall_impl. intros x Ix.
      exact (in_setup_no_property _ (is_solve_in_setup _ Ix)).
  - cbv zeta in Et. rewrite Et. apply guarded_app.
    + apply guarded_no_property. revert Q. apply Forall_impl.
      intros x [Px _]. exact (in_setup_no_property _ Px).
    + apply comboLoop_guarded.
Qed.

Lemma run_genuine m :
  Forall (genuine config scenario) (calls (run config scenario m)).
Proof. apply (run_anatomy config scenario m). Qed.

(** The property is called with requirements met: each property call comes
    right after the transformer call that returned its first argument, and
    that right after the checks of the constraints of the scenario, one
    call for each constraint in their order, all on the context the
    property is given and all of which returned.  What each call records is
    what the function it names returned. *)
Theorem property_follows_the_checks m pre v ctx o post :
  calls (run config scenario m) = pre ++ scenario_property v ctx o :: post ->
  (exists earlier,
     pre = earlier
           ++ map (fun constraint => constraint_check constraint ctx (Returned tt))
                  (constraints_of scenario)
           ++ [scenario_transformer ctx (Returned v)]) /\
  Forall (genuine config scenario) (calls (run config scenario m)).
Proof.
  intros E. split; [ | apply run_genuine ].
  destruct (@guarded_split _ _ _ (run_guarded m) pre v ctx o post E) as (earlier & Ee).
  exists earlier. exact Ee.
Qed.

End RunFacts.

Section Iterations.
Context `{Runtime}.
Variable U : Type.
Variable config : Config.
Variable scenario : Scenario U.
Local Abbreviation M := (M U).
Local Abbreviation Call := (Call U).
Local Abbreviation applySolutions := (@applySolutions _ U).

(** ** The iterations of the loop, call by call *)

Lemma completed_bind_ret {A B : Type} (c : M A) (f : A -> B) m :
  completed (bind c (fun x => ret (f x)) m) =
  match completed (c m) with
  | Normal a => Normal (f a)
  | Return r => Return r
  | Throw e => Throw e
  end.
Proof. unfold bind, ret. destruct (c m) as [[a | r | e] m1 tr]; reflexivity. Qed.

Lemma threaded_no_return ctx combo (tr : list Call) r :
  ~ threaded ctx combo tr (Return r).
Proof.
  intros T. remember (Return r) as c eqn:Ec. revert Ec.
  induction T; intros Ec; try discriminate Ec; auto.
Qed.

Lemma checked_no_return ctx cs (tr : list Call) r :
  ~ checked ctx cs tr (Return r).
Proof.
  intros C. remember (Return r) as c eqn:Ec. revert Ec.
  induction C; intros Ec; try discriminate Ec; auto.
Qed.

Lemma comboBody_iteration startTime context combo l m :
  exists go,
    iteration context (constraints_of scenario) combo
      (calls (comboBody config scenario startTime context combo l m)) go /\
    (go = true <->
     exists l', completed (comboBody config scenario startTime context combo l m)
                = Normal l').
Proof.
  unfold comboBody. rewrite bind_await.
  destruct (forker scenario context (env m)) as [[ctx0 | e] st].
  2:{ exists false. cbn [calls completed]. split; [ apply iteration_fork_throws | ].
      split; [ discriminate | intros (l' & E); discriminate E ]. }
  set (m1 := {| env := st; worldSnapshot := worldSnapshot m |}).
  rewrite prepend_calls, prepend_completed.
  pose proof (@applySolutions_threaded _ U config combo ctx0 m1) as T.
  destruct (completed (applySolutions config combo ctx0 m1)) as [ctx | r | e] eqn:Ea.
  2:{ destruct (threaded_no_return T). }
  2:{ rewrite (bind_throw _ _ m1 Ea). exists false. cbn [calls completed]. simpl app.
      split; [ eapply iteration_solution_throws; exact T | ].
      split; [ discriminate | intros (l' & E); discriminate E ]. }
  rewrite (bind_normal _ _ m1 Ea), prepend_calls, prepend_completed.
  set (m2 := machine (applySolutions config combo ctx0 m1)).
  pose proof (checkAll_checked config scenario (constraints_of scenario) ctx m2) as C.
  destruct (completed (checkAll config scenario (constraints_of scenario) ctx m2))
    as [[] | r | e] eqn:Ec.
  2:{ destruct (checked_no_return C). }
  2:{ rewrite (bind_throw _ _ m2 Ec). exists false. cbn [calls completed]. simpl app.
      split; [ eapply iteration_check_throws; eassumption | ].
      split; [ discriminate | intros (l' & E); discriminate E ]. }
  rewrite (bind_normal _ _ m2 Ec), prepend_calls, prepend_completed.
  set (m3 := machine (checkAll config scenario (constraints_of scenario) ctx m2)).
  rewrite calls_bind_ret, completed_bind_ret.
  destruct (tryStatement_shape config scenario startTime ctx l m3)
    as (tr & o & rev & Et & _ & B & D).
  rewrite Et. simpl app.
  exists ((match o with Returned _ => true | Thrown _ => false end)
          && match rev with Returned _ => true | Thrown _ => false end).
  split; [ eapply iteration_tried; eassumption | ].
  destruct o as [ x | e ], rev as [ h' | e' ]; simpl.
  - rewrite D. split; [ eauto | reflexivity ].
  - rewrite D. split; [ discriminate | intros (l' & E); discriminate E ].
  - destruct D as [ (res & -> & _) | (e2 & -> & _) ];
      (split; [ discriminate | intros (l' & E); discriminate E ]).
  - rewrite D. split; [ discriminate | intros (l' & E); discriminate E ].
Qed.

Lemma comboLoop_iterations startTime context combos l m :
  iterations context (constraints_of scenario) combos
    (calls (comboLoop config scenario startTime context combos l m)).
Proof.
  revert l m. induction combos as [ | combo rest IH ]; intros l m; simpl.
  - apply iterations_done.
  - destruct (comboBody_iteration startTime context combo l m) as (go & I & G).
    destruct (completed (comboBody config scenario startTime context combo l m))
      as [l' | r | e] eqn:E.
    + rewrite (bind_normal _ _ m E), prepend_calls.
      assert (Eg : go = true) by (apply G; eauto). subst go.
      apply iterations_next; [ exact I | apply IH ].
    + rewrite (bind_return _ _ m E). cbn [calls].
      destruct go; [ destruct (proj1 G eq_refl) as (l' & E'); discriminate E' | ].
      apply iterations_last. exact I.
    + rewrite (bind_throw _ _ m E). cbn [calls].
      destruct go; [ destruct (proj1 G eq_refl) as (l' & E'); discriminate E' | ].
      apply iterations_last. exact I.
Qed.

(** [run] fails before the loop, or gets to it. *)
Lemma run_loops m :
  setup_failed (run config scenario m) \/
  looped config scenario m (run config scenario m).
Proof.
  destruct (run_cases config scenario m)
    as [ F | (setup & startTime & context & m' & _ & Ls & Et & _ & h0 & h & Es) ].
  - left. exact F.
  - right. cbv zeta in Et.
    exists h0, context, h, (solve_results setup),
      (calls (comboLoop config scenario startTime context
                (combos (baseSolutions ++ map mapSolution (solve_results setup)))
                {| contextSnapshot := last_snapshot EmptyString setup;
                   cumulativeGas := 0; numSolutionSets := 0 |} m')).
    split; [ exact Ls | ]. split; [ | apply comboLoop_iterations ].
    rewrite Et. rewrite Es at 1. reflexivity.
Qed.

(** ** The context handed from a solution to the next call *)

Lemma handed_weaken x (tr : list Call) : handed (Some x) tr -> handed None tr.
Proof.
  destruct tr as [ | c tr ]; simpl; [ discriminate | ].
  intros [_ R]. split; [ exact I | exact R ].
Qed.

Lemma handed_app p (a b : list Call) :
  handed p a -> handed None b -> handed p (a ++ b).
Proof.
  revert p. induction a as [ | c a IH ]; simpl; intros p Ha Hb.
  - subst p. exact Hb.
  - destruct Ha as [G R]. split; [ exact G | ]. apply IH; assumption.
Qed.

(** Calls that hand no context on: all but the solution calls that
    returned. *)
Lemma handed_plain (tr : list Call) :
  Forall (fun c => match c with
                   | solution_call _ _ (Returned _) => False
                   | _ => True
                   end) tr ->
  handed None tr.
Proof.
  induction 1 as [ | c tr Pc _ IH ]; simpl; [ reflexivity | ].
  split; [ exact I | ].
  destruct c as [ | | | | | s ctx [ v | e ] | | | | ]; try exact IH. destruct Pc.
Qed.

Lemma handed_first x c (rest : list Call) :
  given x c ->
  Forall (fun c => match c with
                   | solution_call _ _ (Returned _) => False
                   | _ => True
                   end) (c :: rest) ->
  handed (Some x) (c :: rest).
Proof.
  intros G F. destruct (handed_plain F) as [_ R]. split; assumption.
Qed.

Lemma threaded_handed ctx0 combo (solutions : list Call) c :
  threaded ctx0 combo solutions c ->
  match c with
  | Normal ctx =>
      forall tail, handed (Some ctx) tail -> handed (Some ctx0) (solutions ++ tail)
  | Return _ => True
  | Throw _ => handed (Some ctx0) solutions
  end.
Proof.
  induction 1 as [ ctx | ctx s rest e | ctx s rest v tr c Tv T IH
                 | ctx s rest v tr c Tv T IH ].
  - intros tail Ht. exact Ht.
  - simpl. split; reflexivity.
  - assert (E : or_else v ctx = v) by (unfold or_else; rewrite Tv; reflexivity).
    destruct c as [ ctx' | r | e ]; [ | exact I | ]; simpl; rewrite E.
    + intros tail Ht. split; [ reflexivity | exact (IH tail Ht) ].
    + split; [ reflexivity | exact IH ].
  - assert (E : or_else v ctx = ctx) by (unfold or_else; rewrite Tv; reflexivity).
    destruct c as [ ctx' | r | e ]; [ | exact I | ]; simpl; rewrite E.
    + intros tail Ht. split; [ reflexivity | exact (IH tail Ht) ].
    + split; [ reflexivity | exact IH ].
Qed.

Lemma checked_plain ctx cs (tr : list Call) c :
  checked ctx cs tr c ->
  Forall (fun c => match c with
                   | solution_call _ _ (Returned _) => False
                   | _ => True
                   end) tr /\
  match tr with
  | [] => True
  | first :: _ => given ctx first
  end.
Proof.
  induction 1 as [ | k rest e | k rest tr c C [IH _] ].
  - split; [ constructor | exact I ].
  - split; [ repeat constructor | reflexivity ].
  - split; [ constructor; [ exact I | exact IH ] | reflexivity ].
Qed.

Lemma block_plain ctx (tr : list Call) passed :
  block ctx tr passed ->
  Forall (fun c => match c with
                   | solution_call _ _ (Returned _) => False
                   | _ => True
                   end) tr /\
  exists first rest, tr = first :: rest /\ given ctx first.
Proof.
  intros B. inversion B; subst; (split; [ repeat constructor | ]);
    eexists _, _; split; reflexivity.
Qed.

Lemma iteration_handed context cs combo (tr : list Call) go :
  iteration context cs combo tr go -> handed None tr.
Proof.
  intros It.
  destruct It as [ e | ctx0 sols e T | ctx0 sols ctx checks e T C
                 | ctx0 sols ctx checks tr passed h rev T C B ];
    simpl; (split; [ exact I | ]).
  - reflexivity.
  - apply (handed_weaken ctx0). exact (threaded_handed T).
  - apply (handed_weaken ctx0). apply (threaded_handed T).
    destruct (checked_plain C) as [P G].
    destruct checks as [ | first rest ]; [ inversion C | ].
    apply handed_first; assumption.
  - apply (handed_weaken ctx0). apply (threaded_handed T).
    destruct (checked_plain C) as [Pc Gc]. destruct (block_plain B) as [Pb Gb].
    assert (P : Forall (fun c : Call => match c with
                                        | solution_call _ _ (Returned _) => False
                                        | _ => True
                                        end)
                  (checks ++ tr ++ [world_revertAndSnapshot h rev])).
    { apply Forall_app. split; [ exact Pc | ].
      apply Forall_app. split; [ exact Pb | repeat constructor ]. }
    destruct checks as [ | first rest ].
    + destruct Gb as (first & rest & -> & G). apply handed_first; assumption.
    + apply handed_first; assumption.
Qed.

Lemma iterations_handed context cs combos (tr : list Call) :
  iterations context cs combos tr -> handed None tr.
Proof.
  induction 1 as [ | combo rest tr It | combo rest tr tr' It Its IH ].
  - reflexivity.
  - exact (iteration_handed It).
  - apply handed_app; [ exact (iteration_handed It) | exact IH ].
Qed.

Lemma in_setup_plain (tr : list Call) :
  Forall (fun c => in_setup c = true) tr ->
  Forall (fun c => match c with
                   | solution_call _ _ (Returned _) => False
                   | _ => True
                   end) tr.
Proof.
  apply Forall_impl. intros c Pc. destruct c; try exact I; discriminate Pc.
Qed.

Lemma run_handed m : handed None (calls (run config scenario m)).
Proof.
  destruct (run_cases config scenario m)
    as [ (e & pre & c & post & Ec & Q & Pc & _ & Pp)
       | (setup & startTime & context & m' & Q & _ & Et & _) ].
  - rewrite Ec. apply handed_plain. apply in_setup_plain.
    apply Forall_app. split.
    + revert Q. apply Forall_impl. intros x [Px _]. exact Px.
    + constructor; [ exact Pc | ].
      destruct Pp as [ [-> _] | (_ & Fp & _) ]; [ constructor | ].
      revert Fp. apply Forall_impl. intros x Ix. exact (is_solve_in_setup _ Ix).
  - cbv zeta in Et. rewrite Et. apply handed_app.
    + apply handed_plain. apply in_setup_plain.
      revert Q. apply Forall_impl. intros x [Px _]. exact Px.
    + exact (iterations_handed (comboLoop_iterations _ _ _ _ _)).
Qed.

Lemma handed_split p (tr : list Call) :
  handed p tr ->
  forall pre solution ctx v post,
    tr = pre ++ solution_call solution ctx (Returned v) :: post ->
    exists next rest, post = next :: rest /\ given (or_else v ctx) next.
Proof.
  revert p. induction tr as [ | c tr IH ]; intros p Hd pre s ctx v post E.
  - destruct pre; discriminate E.
  - destruct Hd as [_ R]. destruct pre as [ | x pre ].
    + inversion E; subst. destruct post as [ | next rest ]; [ discriminate R | ].
      destruct R as [G _]. exists next, rest. split; [ reflexivity | exact G ].
    + inversion E; subst. exact (IH _ R pre s ctx v post eq_refl).
Qed.

(** ** The combos that [run] executes *)

(** C7, amended.  A solve result is normalized by [mapSolution]: null
    becomes the one-element list of the identity solution, a bare solution
    a one-element list, an array is left as it is.  The choice groups fed to
    [combos] are the normalized results prefixed by the group [[identity]]:
    every combo is the identity solution followed by one solution of each
    constraint, in the order of the constraints.  Unless it fails before
    the loop, [run] solves each constraint of the scenario once, in their
    order, and iterates over these combos in the order of [combos], calling
    the solutions of each combo in turn; what each call records is what the
    function it names returned.  With no constraint, [run] executes one
    combo, which applies the identity solution alone. *)
Theorem identity_group_first m :
  let r := run config scenario m in
  (mapSolution None = [identity] /\
   (forall s, mapSolution (Some (One s)) = [s]) /\
   (forall l, mapSolution (Some (Many l)) = l)) /\
  (forall choices combo,
     In combo (combos (baseSolutions ++ choices)) <->
     exists rest,
       combo = identity :: rest /\ Forall2 (fun s choice => In s choice) rest choices) /\
  (setup_failed r \/ looped config scenario m r) /\
  Forall (genuine config scenario) (calls r) /\
  (constraints_of scenario = [] ->
   combos (baseSolutions ++ map mapSolution []) = [[identity]] /\
   (setup_failed r \/
    (exists setup body,
       calls r = setup ++ body /\ quiet in_setup setup /\
       one_identity_combo body))).
Proof.
  cbv zeta. split; [ repeat split | ].
  split; [ | split; [ apply run_loops | split; [ apply run_genuine | ] ] ].
  - intros choices combo. rewrite combos_baseSolutions, in_map_iff. split.
    + intros (rest & <- & I). exists rest. split; [ reflexivity | ].
      apply combos_in. exact I.
    + intros (rest & -> & I). exists rest. split; [ reflexivity | ].
      apply combos_in. exact I.
  - intros Hc. split; [ reflexivity | ].
    destruct (run_cases config scenario m)
      as [ F | (setup & startTime & context & m' & Q & Ls & Et & _) ].
    + left. exact F.
    + right. rewrite Hc in Ls. apply length_zero_iff_nil in Ls.
      rewrite Ls in Et. cbv zeta in Et.
      exists setup. eexists. split; [ exact Et | ]. split; [ exact Q | ].
      apply identity_combo_calls. exact Hc.
Qed.

(** C10.  The falsy values are undefined, null, false, 0 and the empty
    string (and -0, NaN and 0n).  After each solution call of [run] that
    returned, another call follows, and it is made on the context the
    solution was called on when the solution resolved to a falsy value (on
    what it resolved to otherwise): the next solution of the combo, or the
    first check, or the transformer.  In each iteration the solutions of the
    combo are called in turn, each on the context so threaded; the checks,
    the transformer and the property are then run on the context the last
    solution left; what each call records is what the function it names
    returned. *)
Theorem falsy_result_keeps_context m :
  let r := run config scenario m in
  (truthy VUndefined = false /\ truthy VNull = false /\
   truthy (VBool false) = false /\ truthy (VNumber 0) = false /\
   truthy (VString EmptyString) = false) /\
  (forall pre solution ctx v post,
     calls r = pre ++ solution_call solution ctx (Returned v) :: post ->
     exists next rest,
       post = next :: rest /\
       (truthy v = false -> given ctx next) /\
       (truthy v = true -> given v next)) /\
  (setup_failed r \/ looped config scenario m r) /\
  Forall (genuine config scenario) (calls r).
Proof.
  cbv zeta. split; [ repeat split | ].
  split; [ | split; [ apply run_loops | apply run_genuine ] ].
  intros pre s ctx v post E.
  destruct (@handed_split _ _ (run_handed m) pre s ctx v post E)
    as (next & rest & Ep & G).
  exists next, rest. split; [ exact Ep | ].
  unfold or_else in G. split; intros T; rewrite T in G; exact G.
Qed.

End Iterations.

Section Runs.
Context `{Runtime}.
Variable U : Type.
Variable config : Config.

(** A runner used again: when the world reset of a [run] returned the
    handle [h], the next [run] of the same runner, on whatever scenario,
    begins by reverting the world to [h]; and by a fresh [_snapshot] when
    [h] is the empty string, which [if (this.worldSnapshot)] takes for no
    snapshot. *)
Theorem next_run_reverts_to_the_reset (scenario1 scenario2 : Scenario U) m h rest :
  calls (run config scenario1 m) = reset_call (worldSnapshot m) (Returned h) :: rest ->
  exists o rest',
    calls (run config scenario2 (machine (run config scenario1 m))) =
    (if truthy (VString h) then world_revertAndSnapshot h o else world_snapshot o)
      :: rest'.
Proof.
  intros E.
  destruct (run_anatomy config scenario1 m) as [(o1 & rest1 & Ec & Ew & _) _].
  rewrite E in Ec.
  assert (Eo : o1 = Returned h).
  { unfold reset_call in Ec. destruct (is_set (worldSnapshot m)); inversion Ec; reflexivity. }
  subst o1. simpl in Ew.
  destruct (run_anatomy config scenario2 (machine (run config scenario1 m)))
    as [(o2 & rest2 & Ec2 & _) _].
  exists o2, rest2. rewrite Ec2, Ew. reflexivity.
Qed.

End Runs.

Section ResultOfError.
Context `{Runtime}.
Variable U : Type.
Local Abbreviation M := (M U).

(** [generateResult] makes no call and leaves [this.worldSnapshot] as it
    is.  It completes normally when [numSolutionSets] converts to a number,
    as a number does, and it throws what the conversion throws otherwise: a
    TypeError for a Symbol or a BigInt, whatever the conversion of an object
    throws.  When it completes, [gasUsed] is the quotient of [totalGas] by
    the converted value, and the Result reports an error exactly when [err]
    is truthy: for an [err] that is left out, or a thrown value that is
    falsy (undefined, null, 0, the empty string), [error] is null, and then
    so is [trace], and there is no diff. *)
Theorem generateResult_error_null_iff base0 (scenario : Scenario U)
    startTime totalGas n err m :
  let r := generateResult base0 scenario startTime totalGas n err m in
  calls r = [] /\
  worldSnapshot (machine r) = worldSnapshot m /\
  match fst (ToNumber n (env m)) with
  | Returned d =>
      exists res,
        completed r = Normal res /\
        Result.gasUsed res = (totalGas / d)%float /\
        (Result.error res = VNull <-> truthy err = false) /\
        (truthy err = false -> Result.trace res = VNull /\ Result.diff res = None)
  | Thrown e => completed r = Throw e
  end /\
  (forall k st, ToNumber (VNumber k) st = (Returned k, st)) /\
  (forall ref st, ToNumber (VSymbol ref) st = (Thrown (TypeError st), st)) /\
  (forall k st, ToNumber (VBigInt k) st = (Thrown (TypeError st), st)).
Proof.
  cbv zeta. unfold generateResult. rewrite bind_perform.
  destruct (ToNumber n (env m)) as [[d | e] st]; cbn [fst].
  - rewrite bind_now. unfold ret. cbn [calls machine worldSnapshot completed].
    split; [ reflexivity | ]. split; [ reflexivity | ].
    split; [ | repeat split ].
    eexists. split; [ reflexivity | ]. simpl. split; [ reflexivity | ]. split.
    + unfold or_else. destruct (truthy err) eqn:T; split; intros E;
        try reflexivity; try discriminate E.
      rewrite E in T. discriminate T.
    + intros T. rewrite T. split; [ reflexivity | ].
      destruct err; try reflexivity. discriminate T.
  - cbn [calls machine worldSnapshot completed]. repeat split.
Qed.

End ResultOfError.

(** * The scenarios of the examples *)

Example check_fails_calls :
  calls (run counter_config check_fails m0) =
  [ world_snapshot (Returned (handle 0));
    scenario_initializer (Returned (VObject 0));
    world_snapshot (Returned (handle 1));
    constraint_solve never_met (VObject 0) (Returned (Some (One bump)));
    scenario_forker (VObject 0) (Returned (VObject 0));
    solution_call identity (VObject 0) (Returned (VObject 0));
    solution_call bump (VObject 0) (Returned VUndefined);
    constraint_check never_met (VObject 0) (Thrown unmet) ].
Proof. reflexivity. Qed.

Example property_asserts_calls :
  calls (run counter_config property_asserts m0) =
  [ world_snapshot (Returned (handle 0));
    scenario_initializer (Returned (VObject 0));
    world_snapshot (Returned (handle 1));
    scenario_forker (VObject 0) (Returned (VObject 0));
    solution_call identity (VObject 0) (Returned (VObject 0));
    scenario_transformer (VObject 0) (Returned (VObject 0));
    scenario_property (VObject 0) (VObject 0) (Thrown assertion);
    world_revertAndSnapshot (handle 1) (Returned (handle 2)) ].
Proof. reflexivity. Qed.

(** A rejected solve rejects [Promise.all], after every solve was started:
    [run] throws. *)
Example run_throws_on_rejected_solve :
  completed (run counter_config solve_fails m0) = Throw unmet /\
  calls (run counter_config solve_fails m0) =
  [ world_snapshot (Returned (handle 0));
    scenario_initializer (Returned (VObject 0));
    world_snapshot (Returned (handle 1));
    constraint_solve unsolvable (VObject 0) (Thrown unmet);
    constraint_solve (solved_by None) (VObject 0) (Returned None) ].
Proof. split; reflexivity. Qed.



(** C2 fails on the code: after the check that throws, [run] makes no
    world revert.  The counter that the combo's solution bumped stays
    bumped, while the context snapshot had saved it at 0. *)
Lemma no_revert_after_failed_check :
  let r := run counter_config check_fails m0 in
  last (calls r) (world_snapshot (Thrown VNull)) =
    constraint_check never_met (VObject 0) (Thrown unmet) /\
  filter is_revert (calls r) = [] /\
  counter (env (machine r)) = 1 /\
  store (env (machine r)) = [0; 0].
Proof. repeat split. Qed.

(** The amended C2 at a run whose property throws: the property call is
    followed by the revert to the context snapshot, the handle the world
    returned last. *)
Lemma world_reverted_after_try_witness :
  let r := run counter_config property_asserts m0 in
  calls r = asserts_before ++ asserts_failure :: asserts_after /\
  in_try asserts_failure = true /\
  last_snapshot EmptyString asserts_before = handle 1 /\
  exists mid rev rest,
    asserts_after =
      mid ++ world_revertAndSnapshot (last_snapshot EmptyString asserts_before) rev :: rest /\
    Forall (fun x => in_try x = true) mid.
Proof.
  cbv zeta. split; [ reflexivity | ]. split; [ reflexivity | ].
  split; [ reflexivity | ].
  exact (proj1 (world_reverted_after_try counter_config property_asserts m0)
               asserts_before asserts_failure asserts_after eq_refl eq_refl).
Defined.

(** C3 at a run whose property fails an assertion: no solution set was
    satisfied, and the Result's [numSolutionSets] is the assertion error. *)
Lemma failure_result_holds_the_error_witness :
  let r := run counter_config property_asserts m0 in
  exists res,
    calls r = asserts_before ++ asserts_failure :: asserts_after /\
    thrown_by asserts_failure = Some assertion /\
    completed r = Return res /\
    satisfied (calls r) = 0 /\
    Result.numSolutionSets res = assertion /\ Result.error res = VNull.
Proof.
  cbv zeta. eexists.
  split; [ reflexivity | ]. split; [ reflexivity | ].
  split; [ reflexivity | ]. split; [ reflexivity | ].
  exact (failure_result_holds_the_error counter_config property_asserts m0
           asserts_before asserts_failure asserts_after eq_refl eq_refl eq_refl).
Defined.

(** C4 at the same run: the property threw an assertion error with
    [actual] 1 and [expected] 2, and the Result's [diff] is null. *)
Lemma failure_result_has_no_diff_witness :
  let r := run counter_config property_asserts m0 in
  exists res,
    calls r = asserts_before ++ asserts_failure :: asserts_after /\
    thrown_by asserts_failure = Some assertion /\
    completed r = Return res /\
    instanceof_AssertionError assertion = true /\
    get_actual assertion = VNumber 1 /\ get_expected assertion = VNumber 2 /\
    Result.diff res = None /\ Result.trace res = VNull.
Proof.
  cbv zeta. eexists.
  split; [ reflexivity | ]. split; [ reflexivity | ].
  split; [ reflexivity | ]. split; [ reflexivity | ].
  split; [ reflexivity | ]. split; [ reflexivity | ].
  exact (failure_result_has_no_diff counter_config property_asserts m0
           asserts_before asserts_failure asserts_after eq_refl eq_refl eq_refl).
Defined.

(** What [generateResult] makes of the same error when it is passed as
    [err]: the diff of C4. *)
Example generateResult_diff_of_assertion :
  exists res,
    completed (generateResult (base counter_config) property_asserts 0 0
                 (VNumber 0) assertion m0) = Normal res /\
    Result.diff res = Some (VNumber 1, VNumber 2) /\
    Result.error res = assertion /\
    Result.numSolutionSets res = VNumber 0.
Proof. eexists. repeat split. Qed.

(** C5 fails on the code: a constraint that solves to the empty array
    leaves no combo; [run] makes no property call and returns the Result of
    the success path, with no error, zero solution sets and the gas 0/0. *)
Lemma success_without_any_combo :
  let r := run counter_config unsatisfiable m0 in
  exists res,
    completed r = Return res /\
    Result.error res = VNull /\
    Forall (fun c => returned c = true) (calls r) /\
    filter is_property (calls r) = [] /\
    satisfied (calls r) = 0 /\
    Result.numSolutionSets res = VNumber 0 /\
    Result.gasUsed res = (0 / 0)%float.
Proof.
  cbv zeta. eexists. split; [ lazy; reflexivity | ].
  split; [ reflexivity | ]. split; [ vm_compute; repeat constructor | ].
  repeat split.
Qed.

(** The amended C5 at a run with two combos. *)
Lemma success_counts_a_combo_witness :
  let r := run counter_config two_receipts m0 in
  exists res,
    completed r = Return res /\
    Forall (fun c => returned c = true) (calls r) /\
    (forall constraint ctx s,
       In (constraint_solve constraint ctx (Returned s)) (calls r) ->
       mapSolution s <> []) /\
    1 <= satisfied (calls r) /\
    Result.numSolutionSets res = VNumber (incremented (satisfied (calls r)) 0) /\
    Result.gasUsed res =
      (reported_gas 0 (calls r) / incremented (satisfied (calls r)) 0)%float.
Proof.
  cbv zeta. eexists.
  assert (R : Forall (fun c => returned c = true)
                (calls (run counter_config two_receipts m0)))
    by (vm_compute; repeat constructor).
  assert (NE : forall constraint ctx s,
             In (constraint_solve constraint ctx (Returned s))
                (calls (run counter_config two_receipts m0)) ->
             mapSolution s <> []).
  { intros constraint ctx s I. vm_compute in I.
    repeat (destruct I as [ I | I ]; [ try discriminate I | ]); [ | destruct I ].
    inversion I. discriminate. }
  split; [ lazy; reflexivity | ]. split; [ exact R | ]. split; [ exact NE | ].
  apply (success_counts_a_combo counter_config two_receipts m0);
    [ vm_compute; reflexivity | exact R | exact NE ].
Defined.

(** C7 fails on the code: with one constraint that has one solution, the
    first combo, the only one, is the identity followed by that solution.
    The property is run once, on the context the solution put in place;
    the context of the initializer is never exercised. *)
Lemma first_combo_applies_the_solution :
  let r := run counter_config one_solution m0 in
  combos (baseSolutions ++ map mapSolution (solve_results (calls r))) =
    [ [ identity; set_context (VNumber 1) ] ] /\
  filter is_property (calls r) =
    [ scenario_property (VNumber 1) (VNumber 1) (Returned None) ] /\
  set_context (VNumber 1) (VObject 0) counter_world (env m0) <>
    identity (VObject 0) counter_world (env m0).
Proof.
  cbv zeta. split; [ vm_compute; reflexivity | ].
  split; [ vm_compute; reflexivity | discriminate ].
Qed.

(** The amended C7 at a run with two constraints, of which the first has
    two solutions: two combos, each the identity followed by a solution of
    the first constraint and the solution of the second; and at a run with
    no constraint: one combo, the identity. *)
Lemma identity_group_first_witness :
  let r := run counter_config two_constraints m0 in
  filter is_solve (calls r) =
    [ constraint_solve choice_of_two (VObject 0)
        (Returned (Some (Many [ set_context (VNumber 1); set_context (VNumber 2) ])));
      constraint_solve bumping (VObject 0) (Returned (Some (One bump))) ] /\
  combos (baseSolutions ++ map mapSolution (solve_results (calls r))) =
    [ [ identity; set_context (VNumber 1); bump ];
      [ identity; set_context (VNumber 2); bump ] ] /\
  filter before_try (calls r) =
    [ scenario_forker (VObject 0) (Returned (VObject 0));
      solution_call identity (VObject 0) (Returned (VObject 0));
      solution_call (set_context (VNumber 1)) (VObject 0) (Returned (VNumber 1));
      solution_call bump (VNumber 1) (Returned VUndefined);
      constraint_check choice_of_two (VNumber 1) (Returned tt);
      constraint_check bumping (VNumber 1) (Returned tt);
      scenario_forker (VObject 0) (Returned (VObject 0));
      solution_call identity (VObject 0) (Returned (VObject 0));
      solution_call (set_context (VNumber 2)) (VObject 0) (Returned (VNumber 2));
      solution_call bump (VNumber 2) (Returned VUndefined);
      constraint_check choice_of_two (VNumber 2) (Returned tt);
      constraint_check bumping (VNumber 2) (Returned tt) ] /\
  property_calls (env (machine r)) = 2 /\
  (setup_failed r \/ looped counter_config two_constraints m0 r) /\
  Forall (genuine counter_config two_constraints) (calls r) /\
  constraints_of unconstrained = [] /\
  combos (baseSolutions ++ map mapSolution []) = [[identity]] /\
  (setup_failed (run counter_config unconstrained m0) \/
   (exists setup body,
      calls (run counter_config unconstrained m0) = setup ++ body /\
      quiet in_setup setup /\
      one_identity_combo body)).
Proof.
  cbv zeta. split; [ vm_compute; reflexivity | ].
  split; [ vm_compute; reflexivity | ]. split; [ vm_compute; reflexivity | ].
  split; [ vm_compute; reflexivity | ].
  destruct (identity_group_first counter_config two_constraints m0)
    as (_ & _ & L & G & _).
  split; [ exact L | ]. split; [ exact G | ]. split; [ reflexivity | ].
  exact (proj2 (proj2 (proj2 (proj2
           (identity_group_first counter_config unconstrained m0))))
           eq_refl).
Defined.


(** C9 at three combos of which the second fails: the property is called
    twice, and not after the call that threw. *)
Lemma failure_short_circuits_witness :
  let r := run counter_config second_fails m0 in
  List.length (combos (baseSolutions ++ map mapSolution (solve_results (calls r)))) = 3 /\
  calls r = firstn 16 (calls r) ++ second_failure :: skipn 17 (calls r) /\
  returned second_failure = false /\
  List.length (filter is_property (calls r)) = 2 /\
  property_calls (env (machine r)) = 2 /\
  Forall (fun x => is_property x = false) (skipn 17 (calls r)).
Proof.
  cbv zeta. split; [ vm_compute; reflexivity | ].
  assert (E : calls (run counter_config second_fails m0) =
              firstn 16 (calls (run counter_config second_fails m0))
              ++ second_failure :: skipn 17 (calls (run counter_config second_fails m0)))
    by (vm_compute; reflexivity).
  split; [ exact E | ]. split; [ reflexivity | ].
  split; [ vm_compute; reflexivity | ]. split; [ vm_compute; reflexivity | ].
  exact (failure_short_circuits counter_config second_fails m0 _ _ _ E eq_refl).
Defined.

(** C10 at a run whose combo has solutions that resolve to 0, the empty
    string, false, null and undefined: every solution is called on the
    context of the fork, and so are the checks, the transformer and the
    property. *)
Lemma falsy_result_keeps_context_witness :
  let r := run counter_config falsy_results m0 in
  filter before_try (calls r) =
    [ scenario_forker (VObject 0) (Returned (VObject 0));
      solution_call identity (VObject 0) (Returned (VObject 0));
      solution_call (set_context (VNumber 0)) (VObject 0) (Returned (VNumber 0));
      solution_call (set_context (VString EmptyString)) (VObject 0)
        (Returned (VString EmptyString));
      solution_call (set_context (VBool false)) (VObject 0) (Returned (VBool false));
      solution_call (set_context VNull) (VObject 0) (Returned VNull);
      solution_call bump (VObject 0) (Returned VUndefined);
      constraint_check (resolves_to (VNumber 0)) (VObject 0) (Returned tt);
      constraint_check (resolves_to (VString EmptyString)) (VObject 0) (Returned tt);
      constraint_check (resolves_to (VBool false)) (VObject 0) (Returned tt);
      constraint_check (resolves_to VNull) (VObject 0) (Returned tt);
      constraint_check bumping (VObject 0) (Returned tt) ] /\
  filter in_try (calls r) =
    [ scenario_transformer (VObject 0) (Returned (VObject 0));
      scenario_property (VObject 0) (VObject 0) (Returned None) ] /\
  calls r = firstn 14 (calls r)
            ++ solution_call bump (VObject 0) (Returned VUndefined)
            :: skipn 15 (calls r) /\
  (exists next rest,
     skipn 15 (calls r) = next :: rest /\
     (truthy VUndefined = false -> given (VObject 0) next) /\
     (truthy VUndefined = true -> given VUndefined next)) /\
  (setup_failed r \/ looped counter_config falsy_results m0 r) /\
  Forall (genuine counter_config falsy_results) (calls r).
Proof.
  cbv zeta. split; [ vm_compute; reflexivity | ].
  split; [ vm_compute; reflexivity | ].
  assert (E : calls (run counter_config falsy_results m0) =
              firstn 14 (calls (run counter_config falsy_results m0))
              ++ solution_call bump (VObject 0) (Returned VUndefined)
              :: skipn 15 (calls (run counter_config falsy_results m0)))
    by (vm_compute; reflexivity).
  split; [ exact E | ].
  destruct (falsy_result_keeps_context counter_config falsy_results m0)
    as (_ & N & L & G).
  split; [ exact (N _ _ _ _ _ E) | ]. split; [ exact L | exact G ].
Defined.

(** In a whole run, the solution that resolves to 0 leaves the context of
    the initializer for the property. *)
Example falsy_solution_property_call :
  filter is_property (calls (run counter_config falsy_solution m0)) =
  [ scenario_property (VObject 0) (VObject 0) (Returned None) ].
Proof. vm_compute. reflexivity. Qed.

(** The mean of the gas 100 and 300 of two successful combos. *)
Example mean_of_100_and_300 :
  exists res,
    completed (run counter_config two_receipts m0) = Return res /\
    Result.gasUsed res = 200%float /\
    Result.numSolutionSets res = VNumber 2 /\
    Result.error res = VNull.
Proof. eexists. split; [ lazy; reflexivity | repeat split ]. Qed.

(** The second run of a Runner reverts the world to its rolling snapshot. *)
Example second_run_reverts_world :
  let m1 := machine (run counter_config unconstrained m0) in
  worldSnapshot m1 = Some (handle 0) /\
  hd_error (calls (run counter_config unconstrained m1)) =
    Some (world_revertAndSnapshot (handle 0) (Returned (handle 3))).
Proof. cbv zeta. split; vm_compute; reflexivity. Qed.

(** ** The further properties on the examples *)

(** Three choice lists without repetition: four different combos. *)
Lemma combos_NoDup_witness :
  Forall (@NoDup nat) [[1; 2]; [3]; [4; 5]] /\
  NoDup (combos [[1; 2]; [3]; [4; 5]]) /\
  List.length (combos [[1; 2]; [3]; [4; 5]]) = 4.
Proof.
  assert (F : Forall (@NoDup nat) [[1; 2]; [3]; [4; 5]]).
  { repeat constructor; simpl; intuition discriminate. }
  split; [ exact F | ]. split; [ exact (@combos_NoDup nat _ F) | reflexivity ].
Defined.

(** The fork of [one_solution] is given the context of its initializer. *)
Lemma forks_and_solves_get_initial_context_witness :
  let r := run counter_config one_solution m0 in
  In (scenario_forker (VObject 0) (Returned (VObject 0))) (calls r) /\
  nth_error (calls r) 1 = Some (scenario_initializer (Returned (VObject 0))).
Proof.
  cbv zeta.
  assert (I : In (scenario_forker (VObject 0) (Returned (VObject 0)))
                 (calls (run counter_config one_solution m0))).
  { vm_compute. do 4 right. left. reflexivity. }
  split; [ exact I | ].
  apply (@forks_and_solves_get_initial_context _ _ counter_config one_solution m0
           (VObject 0)).
  left. exists (Returned (VObject 0)). exact I.
Defined.

(** The initializer call of [second_fails], which runs two combos. *)
Lemma initializer_is_the_second_call_witness :
  let r := run counter_config second_fails m0 in
  nth_error (calls r) 1 = Some (scenario_initializer (Returned (VObject 0))) /\
  List.length (filter is_property (calls r)) = 2 /\
  1 = 1.
Proof.
  cbv zeta.
  assert (E : nth_error (calls (run counter_config second_fails m0)) 1 =
              Some (scenario_initializer (Returned (VObject 0))))
    by (vm_compute; reflexivity).
  split; [ exact E | ]. split; [ vm_compute; reflexivity | ].
  exact (@initializer_is_the_second_call _ _ counter_config second_fails m0 1 _ E).
Defined.

(** The Result of [second_fails], returned by the [catch] block. *)
Lemma results_name_the_scenario_witness :
  let r := run counter_config second_fails m0 in
  exists res,
    completed r = Return res /\
    Result.numSolutionSets res = unmet /\
    Result.base res = ForkSpec.name (base counter_config) /\
    Result.scenario res = name second_fails /\
    Result.file res =
      match file second_fails with
      | Some f => if truthy (VString f) then f else name second_fails
      | None => name second_fails
      end.
Proof.
  cbv zeta. eexists.
  split; [ lazy; reflexivity | ]. split; [ reflexivity | ].
  apply (@results_name_the_scenario _ _ counter_config second_fails m0).
  vm_compute. reflexivity.
Defined.

(** [second_fails] has one constraint and three combos, of which two are
    run: one solve. *)
Lemma each_constraint_solved_once_witness :
  let r := run counter_config second_fails m0 in
  (exists res, completed r = Return res) /\
  List.length (constraints_of second_fails) = 1 /\
  List.length (filter is_property (calls r)) = 2 /\
  List.length (filter is_solve (calls r)) = List.length (constraints_of second_fails).
Proof.
  cbv zeta.
  split; [ eexists; lazy; reflexivity | ]. split; [ reflexivity | ].
  split; [ vm_compute; reflexivity | ].
  eapply (@each_constraint_solved_once _ _ counter_config second_fails m0).
  lazy. reflexivity.
Defined.


(** The first property call of [two_constraints]: after the checks of its
    two constraints, in their order, and the transformer, on the context
    the solutions left. *)
Lemma property_follows_the_checks_witness :
  let r := run counter_config two_constraints m0 in
  calls r = firstn 12 (calls r)
            ++ scenario_property (VNumber 1) (VNumber 1) (Returned None)
            :: skipn 13 (calls r) /\
  skipn 9 (firstn 12 (calls r)) =
    [ constraint_check choice_of_two (VNumber 1) (Returned tt);
      constraint_check bumping (VNumber 1) (Returned tt);
      scenario_transformer (VNumber 1) (Returned (VNumber 1)) ] /\
  (exists earlier,
     firstn 12 (calls r) =
     earlier ++ map (fun constraint => constraint_check constraint (VNumber 1) (Returned tt))
                    (constraints_of two_constraints)
             ++ [scenario_transformer (VNumber 1) (Returned (VNumber 1))]) /\
  Forall (genuine counter_config two_constraints) (calls r).
Proof.
  cbv zeta.
  assert (E : calls (run counter_config two_constraints m0) =
              firstn 12 (calls (run counter_config two_constraints m0))
              ++ scenario_property (VNumber 1) (VNumber 1) (Returned None)
              :: skipn 13 (calls (run counter_config two_constraints m0)))
    by (vm_compute; reflexivity).
  split; [ exact E | ]. split; [ vm_compute; reflexivity | ].
  exact (@property_follows_the_checks _ _ counter_config two_constraints m0 _ _ _ _ _ E).
Defined.

(** [unconstrained] run after [one_solution] by the same runner: the world
    is reverted to the first snapshot of the first run. *)
Lemma next_run_reverts_to_the_reset_witness :
  let r := run counter_config one_solution m0 in
  calls r = reset_call (worldSnapshot m0) (Returned (handle 0)) :: tl (calls r) /\
  exists o rest,
    calls (run counter_config unconstrained (machine r)) =
    (if truthy (VString (handle 0))
     then world_revertAndSnapshot (handle 0) o
     else world_snapshot o) :: rest.
Proof.
  cbv zeta.
  assert (E : calls (run counter_config one_solution m0) =
              reset_call (worldSnapshot m0) (Returned (handle 0))
              :: tl (calls (run counter_config one_solution m0)))
    by (vm_compute; reflexivity).
  split; [ exact E | ].
  exact (@next_run_reverts_to_the_reset _ _ counter_config one_solution unconstrained
           m0 (handle 0) _ E).
Defined.
